(** * MD-Viewer: the trajectory / excitation correlation engine

    A shallow embedding of the analysis code of [app/static/js/viewer.js]:
    bond inference ([MolecularViewer.createBonds]), the temporal aligner
    ([MolecularCharts.findClosestExcitationData]), the spectrum synthesiser
    ([generateEnergyRange], [generateSpectrum], [calculateGlobalYAxisMax])
    and the twist-angle correlation of [createDMABNChart] with its nested
    [findBestComparisonPair].

    Numbers.  A JavaScript number is modelled by [num]: an exact rational,
    one of the two infinities, or NaN.  Rounding of IEEE doubles and the
    sign of zero are not modelled; comparisons and arithmetic on the special
    values follow ECMAScript.  [Math.exp] and [Math.sqrt] are host functions
    and are taken as parameters of the sections that use them. *)

From Stdlib Require Import String QArith Qround Qabs ZArith List Bool Lia Lqa.
From Stdlib Require Import Sorted.
Import ListNotations.

Local Open Scope Q_scope.

(** ** JavaScript numbers *)

Inductive num : Type :=
| Fin (q : Q)
| PInf
| NInf
| NaN.

Definition Qlt_bool (a b : Q) : bool := negb (Qle_bool b a).

(** [a < b] of ECMAScript: false as soon as one side is NaN. *)
Definition nlt (a b : num) : bool :=
  match a, b with
  | NaN, _ | _, NaN => false
  | Fin x, Fin y => Qlt_bool x y
  | NInf, Fin _ | NInf, PInf | Fin _, PInf => true
  | _, _ => false
  end.

(** [a <= b]. *)
Definition nle (a b : num) : bool :=
  match a, b with
  | NaN, _ | _, NaN => false
  | Fin x, Fin y => Qle_bool x y
  | NInf, _ | _, PInf => true
  | _, _ => false
  end.

Definition ngt (a b : num) : bool := nlt b a.
Definition nge (a b : num) : bool := nle b a.

Definition nneg (a : num) : num :=
  match a with
  | Fin x => Fin (- x)
  | PInf => NInf
  | NInf => PInf
  | NaN => NaN
  end.

Definition nadd (a b : num) : num :=
  match a, b with
  | NaN, _ | _, NaN => NaN
  | Fin x, Fin y => Fin (x + y)
  | PInf, NInf | NInf, PInf => NaN
  | PInf, _ | _, PInf => PInf
  | NInf, _ | _, NInf => NInf
  end.

Definition nsub (a b : num) : num := nadd a (nneg b).

(** Sign of a rational: [Gt] positive, [Eq] zero, [Lt] negative. *)
Definition Qsign (x : Q) : comparison := (0 ?= x)%Q.

Definition inf_of (s : comparison) (pos : bool) : num :=
  match s with
  | Eq => NaN
  | Lt => if pos then PInf else NInf
  | Gt => if pos then NInf else PInf
  end.

Definition nmul (a b : num) : num :=
  match a, b with
  | NaN, _ | _, NaN => NaN
  | Fin x, Fin y => Fin (x * y)
  | Fin x, PInf | PInf, Fin x => inf_of (Qsign x) true
  | Fin x, NInf | NInf, Fin x => inf_of (Qsign x) false
  | PInf, PInf | NInf, NInf => PInf
  | PInf, NInf | NInf, PInf => NInf
  end.

(** Division; a zero divisor is taken as [+0]. *)
Definition ndiv (a b : num) : num :=
  match a, b with
  | NaN, _ | _, NaN => NaN
  | Fin x, Fin y => if Qeq_bool y 0 then inf_of (Qsign x) true else Fin (x / y)
  | Fin _, PInf | Fin _, NInf => Fin 0
  | PInf, Fin y => match Qsign y with Gt => NInf | _ => PInf end
  | NInf, Fin y => match Qsign y with Gt => PInf | _ => NInf end
  | _, _ => NaN
  end.

Definition Math_abs (a : num) : num :=
  match a with
  | Fin x => Fin (Qabs x)
  | PInf | NInf => PInf
  | NaN => NaN
  end.

Definition Math_ceil (a : num) : num :=
  match a with
  | Fin x => Fin (inject_Z (Qceiling x))
  | _ => a
  end.

Definition nmax2 (a b : num) : num :=
  match a, b with
  | NaN, _ | _, NaN => NaN
  | _, _ => if nlt a b then b else a
  end.

Definition nmin2 (a b : num) : num :=
  match a, b with
  | NaN, _ | _, NaN => NaN
  | _, _ => if nlt b a then b else a
  end.

(** [Math.max(...l)] and [Math.min(...l)]; on no argument they are
    [-Infinity] and [+Infinity]. *)
Definition Math_max (l : list num) : num := fold_left nmax2 l NInf.
Definition Math_min (l : list num) : num := fold_left nmin2 l PInf.

Definition num_of_nat (n : nat) : num := Fin (inject_Z (Z.of_nat n)).

Definition is_fin (a : num) : Prop := exists q, a = Fin q.

(** Equality of numbers up to the representation of the rational. *)
Definition num_eq (a b : num) : Prop :=
  match a, b with
  | Fin x, Fin y => x == y
  | PInf, PInf | NInf, NInf | NaN, NaN => True
  | _, _ => False
  end.

(** ** JavaScript values of a field that the code type-checks *)

Inductive val : Type :=
| VNum (n : num)
| VUndefined
| VNull.

(** [typeof v === 'number'] *)
Definition typeof_number (v : val) : bool :=
  match v with VNum _ => true | _ => false end.

(** ToNumber *)
Definition toNumber (v : val) : num :=
  match v with
  | VNum n => n
  | VUndefined => NaN
  | VNull => Fin 0
  end.

(** [v || 0], already converted to a number by its consumer [Math.max]. *)
Definition or_zero (v : val) : num :=
  match v with
  | VNum (Fin q) => if Qeq_bool q 0 then Fin 0 else Fin q
  | VNum NaN => Fin 0
  | VNum n => n
  | VUndefined | VNull => Fin 0
  end.

(** [a > b] on values. *)
Definition vgt (a b : val) : bool := ngt (toNumber a) (toNumber b).

(** ** Data *)

Definition vec3 : Type := (num * num * num)%type.

(** One excitation sample as served to the page; an interpolated sample is
    an object of the same shape carrying [interpolated: true] and no dipole
    fields.  On a stored sample the flag is absent, which reads as false. *)
Module Exc.
Record t : Type := mk {
  time_fs : num;
  time_ps : num;
  s1_energy : num;
  s1_oscillator : val;
  s2_energy : num;
  s2_oscillator : val;
  energy_gap : num;
  s1_dipole : option vec3;
  s2_dipole : option vec3;
  interpolated : bool
}.
End Exc.

(** One entry of [geometryData]. *)
Module Geom.
Record t : Type := mk {
  twist_angle : num;
  ring_planarity : num;
  time_ps : num;
  time_fs : num;
  frame_number : nat
}.
End Geom.

(** One entry of [correlationData]. *)
Module Corr.
Record t : Type := mk {
  twist_angle : num;
  ring_planarity : num;
  s1_oscillator : val;
  s2_oscillator : val;
  time_ps : num;
  time_fs : num;
  frame_number : nat;
  s1_dominant : bool
}.
End Corr.

(** ** createDMABNChart: matching frames to excitation samples *)

(** The body of the inner [excitationData.forEach]. *)
Definition closest_step (t : num) (acc : option Exc.t * num) (excFrame : Exc.t)
  : option Exc.t * num :=
  let timeDiff := Math_abs (nsub (Exc.time_fs excFrame) t) in
  if nlt timeDiff (snd acc) then (Some excFrame, timeDiff) else acc.

(** [(closestExcitation, minTimeDiff)] after the inner loop. *)
Definition closest_scan (t : num) (excitationData : list Exc.t)
  : option Exc.t * num :=
  fold_left (closest_step t) excitationData (None, PInf).

(** What one [geomFrame] pushes on [correlationData], if anything. *)
Definition correlate_frame (excitationData : list Exc.t) (geomFrame : Geom.t)
  : option Corr.t :=
  match closest_scan (Geom.time_fs geomFrame) excitationData with
  | (Some closestExcitation, minTimeDiff) =>
      if nlt minTimeDiff (Fin 50)
         && typeof_number (Exc.s1_oscillator closestExcitation)
         && typeof_number (Exc.s2_oscillator closestExcitation)
      then Some {| Corr.twist_angle := Geom.twist_angle geomFrame;
                   Corr.ring_planarity := Geom.ring_planarity geomFrame;
                   Corr.s1_oscillator := Exc.s1_oscillator closestExcitation;
                   Corr.s2_oscillator := Exc.s2_oscillator closestExcitation;
                   Corr.time_ps := Geom.time_ps geomFrame;
                   Corr.time_fs := Geom.time_fs geomFrame;
                   Corr.frame_number := Geom.frame_number geomFrame;
                   Corr.s1_dominant :=
                     vgt (Exc.s1_oscillator closestExcitation)
                         (Exc.s2_oscillator closestExcitation) |}
      else None
  | (None, _) => None
  end.

Definition push_opt {A} (acc : list A) (o : option A) : list A :=
  match o with Some a => acc ++ [a] | None => acc end.

(** The outer [geometryData.forEach], pushing in frame order. *)
Definition correlationData (geometryData : list Geom.t)
  (excitationData : list Exc.t) : list Corr.t :=
  fold_left (fun acc g => push_opt acc (correlate_frame excitationData g))
            geometryData [].

(** ** createDMABNChart: the representative pair of a bin *)

Record ComparisonPair : Type := mkPair {
  s1Frame : option Corr.t;
  s2Frame : option Corr.t;
  twistDifference : option num   (* [None] is JavaScript's null *)
}.

(** A null [twistDifference] compared as a number is 0. *)
Definition null_as_zero (o : option num) : num :=
  match o with Some d => d | None => Fin 0 end.

(** The body of the two nested [for ... of] loops. *)
Definition pair_step (s1 : Corr.t) (bestPair : ComparisonPair) (s2 : Corr.t)
  : ComparisonPair :=
  let twistDiff := Math_abs (nsub (Corr.twist_angle s1) (Corr.twist_angle s2)) in
  if nlt twistDiff (null_as_zero (twistDifference bestPair))
  then {| s1Frame := Some s1; s2Frame := Some s2; twistDifference := Some twistDiff |}
  else bestPair.

Definition findBestComparisonPair (s1Examples s2Examples : list Corr.t)
  : ComparisonPair :=
  if ((length s1Examples =? 0) || (length s2Examples =? 0))%nat
  then {| s1Frame := hd_error s1Examples;
          s2Frame := hd_error s2Examples;
          twistDifference := None |}
  else fold_left
         (fun bestPair s1 => fold_left (pair_step s1) s2Examples bestPair)
         s1Examples
         {| s1Frame := None; s2Frame := None; twistDifference := Some PInf |}.

(** ** createDMABNChart: the twist-angle bins *)

Module Bin.
Record t : Type := mk {
  binCenter : num;
  binStart : num;
  binEnd : num;
  totalCount : nat;
  s1DominantCount : nat;
  s2DominantCount : nat;
  s1Percentage : num;
  s2Percentage : num;
  avgPlanarity : num;
  exampleS1Frame : option nat;
  exampleS2Frame : option nat;
  s1TwistAngle : option num;
  s2TwistAngle : option num;
  twistAngleDifference : option num;
  allFrames : list Corr.t
}.
End Bin.

Definition binSize : num := Fin 5.

Definition minTwist (correlationData : list Corr.t) : num :=
  Math_min (map Corr.twist_angle correlationData).

Definition maxTwist (correlationData : list Corr.t) : num :=
  Math_max (map Corr.twist_angle correlationData).

Definition numBins (correlationData : list Corr.t) : num :=
  Math_ceil (ndiv (nsub (maxTwist correlationData) (minTwist correlationData))
                  binSize).

Definition binStart_of (correlationData : list Corr.t) (i : nat) : num :=
  nadd (minTwist correlationData) (nmul (num_of_nat i) binSize).

(** [d.twist_angle >= binStart && d.twist_angle < binEnd] *)
Definition in_bin (binStart binEnd : num) (d : Corr.t) : bool :=
  nge (Corr.twist_angle d) binStart && nlt (Corr.twist_angle d) binEnd.

Definition pointsInBin (correlationData : list Corr.t) (i : nat) : list Corr.t :=
  let binStart := binStart_of correlationData i in
  filter (in_bin binStart (nadd binStart binSize)) correlationData.

(** One turn of the [for (let i = 0; i < numBins; i++)] loop: the record
    pushed on [binData], or nothing for an empty bin.  The display string
    [binRange] is left out. *)
Definition bin_of_index (correlationData : list Corr.t) (i : nat) : option Bin.t :=
  let binStart := binStart_of correlationData i in
  let binEnd := nadd binStart binSize in
  let binCenter := nadd binStart (ndiv binSize (Fin 2)) in
  let pts := pointsInBin correlationData i in
  if (0 <? length pts)%nat then
    let s1DominantCount := length (filter Corr.s1_dominant pts) in
    let s2DominantCount := (length pts - s1DominantCount)%nat in
    let s1Examples := filter Corr.s1_dominant pts in
    let s2Examples := filter (fun d => negb (Corr.s1_dominant d)) pts in
    let comparisonPair := findBestComparisonPair s1Examples s2Examples in
    Some {| Bin.binCenter := binCenter;
            Bin.binStart := binStart;
            Bin.binEnd := binEnd;
            Bin.totalCount := length pts;
            Bin.s1DominantCount := s1DominantCount;
            Bin.s2DominantCount := s2DominantCount;
            Bin.s1Percentage :=
              nmul (ndiv (num_of_nat s1DominantCount) (num_of_nat (length pts)))
                   (Fin 100);
            Bin.s2Percentage :=
              nmul (ndiv (num_of_nat s2DominantCount) (num_of_nat (length pts)))
                   (Fin 100);
            Bin.avgPlanarity :=
              ndiv (fold_left (fun sum d => nadd sum (Corr.ring_planarity d))
                              pts (Fin 0))
                   (num_of_nat (length pts));
            Bin.exampleS1Frame :=
              option_map Corr.frame_number (s1Frame comparisonPair);
            Bin.exampleS2Frame :=
              option_map Corr.frame_number (s2Frame comparisonPair);
            Bin.s1TwistAngle :=
              option_map Corr.twist_angle (s1Frame comparisonPair);
            Bin.s2TwistAngle :=
              option_map Corr.twist_angle (s2Frame comparisonPair);
            Bin.twistAngleDifference := twistDifference comparisonPair;
            Bin.allFrames := pts |}
  else None.

(** The values of [i] the loop [for (let i = 0; i < bound; i++)] runs
    through; [None] when the bound is [+Infinity] and the loop never ends. *)
Definition loop_indices (bound : num) : option (list nat) :=
  match bound with
  | Fin q => Some (seq 0 (Z.to_nat (Qceiling q)))
  | PInf => None
  | NInf | NaN => Some []
  end.

Definition binData (correlationData : list Corr.t) : option (list Bin.t) :=
  option_map
    (fun indices =>
       fold_left (fun acc i => push_opt acc (bin_of_index correlationData i))
                 indices [])
    (loop_indices (numBins correlationData)).

(** What a call of [createDMABNChart] leaves in [window.dmabnCharts.binData]. *)
Inductive chart_run : Type :=
| NotDrawn                          (* an early [return]: nothing to chart *)
| Loops                             (* the bin loop never leaves *)
| Drawn (binData : list Bin.t).

Definition createDMABNChart (geometryData : option (list Geom.t))
  (excitationData : option (list Exc.t)) : chart_run :=
  match geometryData, excitationData with
  | Some geometryData, Some (e :: es) =>
      match binData (correlationData geometryData (e :: es)) with
      | Some bins => Drawn bins
      | None => Loops
      end
  | _, _ => NotDrawn
  end.

(** ** MolecularCharts.findClosestExcitationData *)

(** The search loop: the first index [i] with
    [data[i].time_fs <= t && data[i + 1].time_fs >= t], counted from [i]. *)
Fixpoint find_beforeIndex (i : nat) (rest : list Exc.t) (targetTimeFs : num)
  : option nat :=
  match rest with
  | a :: ((b :: _) as tl) =>
      if nle (Exc.time_fs a) targetTimeFs && nge (Exc.time_fs b) targetTimeFs
      then Some i
      else find_beforeIndex (S i) tl targetTimeFs
  | _ => None
  end.

(** The object literal [interpolated], after [energy_gap] is overwritten. *)
Definition interpolate (before after : Exc.t) (targetTimeFs : num) : Exc.t :=
  let timeDiff := nsub (Exc.time_fs after) (Exc.time_fs before) in
  let fraction := ndiv (nsub targetTimeFs (Exc.time_fs before)) timeDiff in
  let lerp (b a : num) := nadd b (nmul fraction (nsub a b)) in
  let s1_energy := lerp (Exc.s1_energy before) (Exc.s1_energy after) in
  let s2_energy := lerp (Exc.s2_energy before) (Exc.s2_energy after) in
  {| Exc.time_fs := targetTimeFs;
     Exc.time_ps := ndiv targetTimeFs (Fin 1000);
     Exc.s1_energy := s1_energy;
     Exc.s1_oscillator :=
       VNum (lerp (toNumber (Exc.s1_oscillator before))
                  (toNumber (Exc.s1_oscillator after)));
     Exc.s2_energy := s2_energy;
     Exc.s2_oscillator :=
       VNum (lerp (toNumber (Exc.s2_oscillator before))
                  (toNumber (Exc.s2_oscillator after)));
     Exc.energy_gap := nsub s2_energy s1_energy;
     Exc.s1_dipole := None;
     Exc.s2_dipole := None;
     Exc.interpolated := true |}.

(** [None] is the function's [null]. *)
Definition findClosestExcitationData (excitationData : option (list Exc.t))
  (targetTimeFs : num) : option Exc.t :=
  match excitationData with
  | None | Some [] => None
  | Some ((first :: _) as data) =>
      if nlt targetTimeFs (Exc.time_fs first) then Some first
      else
        let lastSample := last data first in
        if ngt targetTimeFs (Exc.time_fs lastSample) then Some lastSample
        else
          match find_beforeIndex 0 data targetTimeFs with
          | None => fst (closest_scan targetTimeFs data)
          | Some beforeIndex =>
              Some (interpolate (nth beforeIndex data first)
                                (nth (beforeIndex + 1) data first)
                                targetTimeFs)
          end
  end.

(** ** MolecularCharts: spectrum and the fixed y-axis maximum *)

Record MolecularCharts : Type := mkCharts {
  excitationData : option (list Exc.t);
  globalYAxisMax : option num          (* [None] is the constructor's null *)
}.

Section SpectrumCode.

(** [Math.exp] on finite arguments. *)
Variable exp_Q : Q -> Q.

Definition Math_exp (x : num) : num :=
  match x with
  | Fin q => Fin (exp_Q q)
  | PInf => PInf
  | NInf => Fin 0
  | NaN => NaN
  end.

(** [Math.pow(x, 2)] *)
Definition pow2 (x : num) : num := nmul x x.

Definition width : num := Fin (15 # 100).

Definition generateEnergyRange (min max : num) (steps : nat) : list num :=
  let step := ndiv (nsub max min) (nsub (num_of_nat steps) (Fin 1)) in
  map (fun i => nadd min (nmul (num_of_nat i) step)) (seq 0 steps).

(** [osc * Math.exp(-Math.pow(energy - e, 2) / (2 * width * width))] *)
Definition contribution (osc : val) (e energy : num) : num :=
  nmul (toNumber osc)
       (Math_exp (ndiv (nneg (pow2 (nsub energy e)))
                       (nmul (nmul (Fin 2) width) width))).

(** The body of [energyRange.forEach]: the value pushed for one [energy]. *)
Definition intensity_at (excitation : Exc.t) (energy : num) : num :=
  let intensity := Fin 0 in
  let intensity :=
    if vgt (Exc.s1_oscillator excitation) (VNum (Fin 0))
    then nadd intensity
              (contribution (Exc.s1_oscillator excitation)
                            (Exc.s1_energy excitation) energy)
    else intensity in
  let intensity :=
    if vgt (Exc.s2_oscillator excitation) (VNum (Fin 0))
    then nadd intensity
              (contribution (Exc.s2_oscillator excitation)
                            (Exc.s2_energy excitation) energy)
    else intensity in
  intensity.

Definition generateSpectrum (energyRange : list num) (excitation : Exc.t)
  : list num :=
  map (intensity_at excitation) energyRange.

(** The body of [this.excitationData.forEach] in [calculateGlobalYAxisMax],
    on the pair [(maxOscillator, maxSpectrum)]. *)
Definition yaxis_step (acc : num * num) (excitation : Exc.t) : num * num :=
  let maxOscillator :=
    Math_max [fst acc;
              or_zero (Exc.s1_oscillator excitation);
              or_zero (Exc.s2_oscillator excitation)] in
  let energyRange := generateEnergyRange (Fin 2) (Fin 7) 1000 in
  let spectrum := generateSpectrum energyRange excitation in
  let spectrumMax := Math_max spectrum in
  (maxOscillator, Math_max [snd acc; spectrumMax]).

(** The [if ... else if] cascade that rounds to a nice increment. *)
Definition nice_max (paddedMax : num) : num :=
  if nle paddedMax (Fin (1 # 10)) then Fin (1 # 10)
  else if nle paddedMax (Fin (5 # 10)) then Fin (5 # 10)
  else if nle paddedMax (Fin 1) then Fin 1
  else if nle paddedMax (Fin 2) then Fin 2
  else if nle paddedMax (Fin 5) then Fin 5
  else Math_ceil paddedMax.

Definition dataMax (data : list Exc.t) : num :=
  let acc := fold_left yaxis_step data (Fin 0, Fin 0) in
  Math_max [fst acc; snd acc].

Definition calculateGlobalYAxisMax (this : MolecularCharts) : MolecularCharts :=
  match excitationData this with
  | None | Some [] =>
      {| excitationData := excitationData this;
         globalYAxisMax := Some (Fin 2) |}
  | Some data =>
      let paddedMax := nmul (dataMax data) (Fin (12 # 10)) in
      {| excitationData := excitationData this;
         globalYAxisMax := Some (nice_max paddedMax) |}
  end.

(** [setData]; the trajectory it also stores plays no part here. *)
Definition setData (this : MolecularCharts) (data : option (list Exc.t))
  : MolecularCharts :=
  calculateGlobalYAxisMax
    {| excitationData := data; globalYAxisMax := globalYAxisMax this |}.

End SpectrumCode.

(** ** MolecularViewer.createBonds *)

Record BondDistances : Type := { dist_H : num; dist_default : num }.

(** [this.maxBondDistances] as the constructor sets it. *)
Definition maxBondDistances : BondDistances :=
  {| dist_H := Fin (12 # 10); dist_default := Fin (18 # 10) |}.

(** An entry of [this.bondMeshes]; the cylinder built by [createBond] is
    kept as the two end points it is built from. *)
Record BondMesh : Type := mkBond {
  mesh : vec3 * vec3;
  atomIndices : nat * nat
}.

(** How a call ends.  The error kinds are those the specification names. *)
Inductive error_kind : Type := DataShapeError | EmptySeriesError | NumericError.

Inductive completion (A : Type) : Type :=
| Returns (a : A)
| Throws (e : error_kind).
Arguments Returns {A} a.
Arguments Throws {A} e.

Section BondCode.

(** [Math.sqrt] on non-negative finite arguments. *)
Variable sqrt_Q : Q -> Q.

Definition Math_sqrt (x : num) : num :=
  match x with
  | Fin q => if Qlt_bool q 0 then NaN else Fin (sqrt_Q q)
  | PInf => PInf
  | NInf | NaN => NaN
  end.

Definition calculateDistance (coord1 coord2 : vec3) : num :=
  let '(x1, y1, z1) := coord1 in
  let '(x2, y2, z2) := coord2 in
  let dx := nsub x1 x2 in
  let dy := nsub y1 y2 in
  let dz := nsub z1 z2 in
  Math_sqrt (nadd (nadd (nmul dx dx) (nmul dy dy)) (nmul dz dz)).

(** [atoms[i] === 'H']; an index past the end reads [undefined]. *)
Definition is_H (atoms : list string) (i : nat) : bool :=
  match nth_error atoms i with
  | Some a => String.eqb a "H"
  | None => false
  end.

(** The threshold chosen for the pair [(i, j)]. *)
Definition maxDistance (atoms : list string) (i j : nat) : num :=
  if is_H atoms i || is_H atoms j
  then dist_H maxBondDistances
  else dist_default maxBondDistances.

(** The body of the inner loop, for defined [coords[i]] and [coords[j]]. *)
Definition bond_step (atoms : list string) (i : nat) (ci : vec3)
  (bondMeshes : list BondMesh) (jc : nat * vec3) : list BondMesh :=
  let '(j, cj) := jc in
  if nlt (calculateDistance ci cj) (maxDistance atoms i j)
  then bondMeshes ++ [{| mesh := (ci, cj); atomIndices := (i, j) |}]
  else bondMeshes.

(** The list [coords] paired with its indices, from index [i] on. *)
Fixpoint indexed_from {A} (i : nat) (l : list A) : list (nat * A) :=
  match l with
  | [] => []
  | a :: l' => (i, a) :: indexed_from (S i) l'
  end.

(** The outer loop over [i], the inner one over [j = i + 1 ...]. *)
Fixpoint bond_loop (atoms : list string) (i : nat) (rest : list vec3)
  (bondMeshes : list BondMesh) : list BondMesh :=
  match rest with
  | [] => bondMeshes
  | ci :: tl =>
      bond_loop atoms (S i) tl
        (fold_left (bond_step atoms i ci) (indexed_from (S i) tl) bondMeshes)
  end.

(** [this.bondMeshes] after the call. *)
Definition createBonds (atoms : list string) (coords : list vec3)
  : list BondMesh :=
  bond_loop atoms 0 coords [].

(** The function has no [throw] and compares no lengths: it always
    returns. *)
Definition createBonds_completion (atoms : list string) (coords : list vec3)
  : completion (list BondMesh) :=
  Returns (createBonds atoms coords).

End BondCode.

(** ** MolecularCharts.findClosestExcitation

    The same loop, with the same 100 fs gate, is the body of
    [MolecularViewer.getCurrentExcitationData] and of
    [DMABNGeometryCharts.findClosestExcitationData] in [dmabn_charts.js]. *)

Definition findClosestExcitation (excitationData : option (list Exc.t))
  (timeFs : num) : option Exc.t :=
  match excitationData with
  | None => None
  | Some data =>
      let scan := closest_scan timeFs data in
      if nlt (snd scan) (Fin 100) then fst scan else None
  end.

(** ** The frame chosen by a click on a bar: handleBarClick

    [targetFrame] after the [if ... else if ... else] cascade;
    [datasetIndex] is 0 for the S1 bars and 1 for the S2 bars. *)

Definition not_null {A} (o : option A) : bool :=
  match o with Some _ => true | None => false end.

Definition handleBarClick_target (bin : Bin.t) (datasetIndex : nat)
  : option nat :=
  if (datasetIndex =? 0)%nat && not_null (Bin.exampleS1Frame bin)
  then Bin.exampleS1Frame bin
  else if (datasetIndex =? 1)%nat && not_null (Bin.exampleS2Frame bin)
  then Bin.exampleS2Frame bin
  else if not_null (Bin.exampleS1Frame bin) then Bin.exampleS1Frame bin
  else if not_null (Bin.exampleS2Frame bin) then Bin.exampleS2Frame bin
  else None.

(** ** MolecularViewer: speed and scale settings

    [Math.max(lo, Math.min(hi, x))] *)

Definition clamp (lo hi x : num) : num := Math_max [lo; Math_min [hi; x]].

(** [this.playbackSpeed] after [setPlaybackSpeed(speed)]. *)
Definition setPlaybackSpeed (speed : num) : num :=
  clamp (Fin (1 # 10)) (Fin 5) speed.

(** [this.dipoleScale] after [setDipoleScale(scale)]. *)
Definition setDipoleScale (scale : num) : num :=
  clamp (Fin (1 # 10)) (Fin 10) scale.

(** ** MolecularViewer: the bounding sphere and the camera distance *)

Section SphereCode.

Variable sqrt_Q : Q -> Q.

(** The distance computed in [calculateBoundingSphere] for one atom. *)
Definition center_distance (moleculeCenter coord : vec3) : num :=
  let '(x, y, z) := coord in
  let '(cx, cy, cz) := moleculeCenter in
  Math_sqrt sqrt_Q
    (nadd (nadd (pow2 (nsub x cx)) (pow2 (nsub y cy))) (pow2 (nsub z cz))).

(** [calculateBoundingSphere().radius], for the coordinates of frame 0
    ([None] when there is no trajectory or it has no frame). *)
Definition boundingRadius (firstCoords : option (list vec3))
  (moleculeCenter : vec3) : num :=
  match firstCoords with
  | None => Fin 5
  | Some coords =>
      nadd (fold_left
              (fun maxDistance coord =>
                 Math_max [maxDistance; center_distance moleculeCenter coord])
              coords (Fin 0))
           (Fin 2)
  end.

(** The distance at which [positionCameraForMolecule] puts the camera. *)
Definition cameraDistance (firstCoords : option (list vec3))
  (moleculeCenter : vec3) : num :=
  Math_max [nmul (boundingRadius firstCoords moleculeCenter) (Fin 3); Fin 10].

End SphereCode.

(** ** MolecularViewer.findDipoleFields *)

(** The result object [{x, y, z}]; [None] is null. *)
Record DipoleFields : Type := mkFields {
  field_x : option string;
  field_y : option string;
  field_z : option string
}.

(** The four naming patterns, in the order they are tried. *)
Definition dipole_patterns (state : string) : list (string * string * string) :=
  [ ((state ++ "_dipole_x")%string, (state ++ "_dipole_y")%string,
     (state ++ "_dipole_z")%string);
    ((state ++ "_x")%string, (state ++ "_y")%string, (state ++ "_z")%string);
    ((state ++ "_col3")%string, (state ++ "_col4")%string,
     (state ++ "_col5")%string);
    ((state ++ "_transition_dipole_x")%string,
     (state ++ "_transition_dipole_y")%string,
     (state ++ "_transition_dipole_z")%string) ].

(** [fields.includes(k)] *)
Definition includes (fields : list string) (k : string) : bool :=
  existsb (String.eqb k) fields.

(** The [for (const pattern of patterns)] loop. *)
Fixpoint first_pattern (fields : list string)
  (patterns : list (string * string * string)) : DipoleFields :=
  match patterns with
  | [] => mkFields None None None
  | (x, y, z) :: rest =>
      if includes fields x && includes fields y && includes fields z
      then mkFields (Some x) (Some y) (Some z)
      else first_pattern fields rest
  end.

(** [fields] is [Object.keys(excitationData)]. *)
Definition findDipoleFields (fields : list string) (state : string)
  : DipoleFields :=
  first_pattern fields (dipole_patterns state).

(** ** MolecularViewer: stepping through the frames

    The frame counter and the trajectory length are what these methods
    compute with; [None] stands for a trajectory that is not loaded.  A
    frame index is a whole number. *)

Record Playback : Type := mkPlayback {
  frameCount : option nat;       (* [this.trajectoryData.length] *)
  currentFrame : Z
}.

(** How a call ends: normally, or on the [TypeError] of reading [coords]
    of a frame that does not exist. *)
Inductive run (A : Type) : Type :=
| Done (a : A)
| TypeError.
Arguments Done {A} a.
Arguments TypeError {A}.

(** [updateFrame(frameIndex)], as far as the frame counter goes: nothing
    without a trajectory or past its end, a [TypeError] below 0. *)
Definition updateFrame (this : Playback) (frameIndex : Z) : run Playback :=
  match frameCount this with
  | None => Done this
  | Some n =>
      if (Z.of_nat n <=? frameIndex)%Z then Done this
      else if (frameIndex <? 0)%Z then TypeError
      else Done {| frameCount := frameCount this; currentFrame := frameIndex |}
  end.

(** [nextFrame()]; on an empty trajectory the remainder is NaN and the
    frame read by [updateFrame] does not exist. *)
Definition nextFrame (this : Playback) : run Playback :=
  match frameCount this with
  | None => Done this
  | Some 0%nat => TypeError
  | Some n =>
      let next := Z.rem (currentFrame this + 1) (Z.of_nat n) in
      updateFrame {| frameCount := frameCount this; currentFrame := next |} next
  end.

(** [previousFrame()] *)
Definition previousFrame (this : Playback) : run Playback :=
  match frameCount this with
  | None => Done this
  | Some n =>
      let prev := if (0 <? currentFrame this)%Z
                  then (currentFrame this - 1)%Z
                  else (Z.of_nat n - 1)%Z in
      updateFrame {| frameCount := frameCount this; currentFrame := prev |} prev
  end.


(** ** Definitions used to state the properties *)

(** The elements an optional push contributes. *)
Definition olist {A} (o : option A) : list A :=
  match o with Some a => [a] | None => [] end.

(** A NaN or infinite number stored in a field. *)
Definition not_finite_number (v : val) : Prop :=
  v = VNum NaN \/ v = VNum PInf \/ v = VNum NInf.

(** Samples strictly ordered by time, as the series is served. *)
Inductive time_ordered : list Exc.t -> Prop :=
| ordered_nil : time_ordered []
| ordered_one e : time_ordered [e]
| ordered_cons a b l :
    nlt (Exc.time_fs a) (Exc.time_fs b) = true ->
    time_ordered (b :: l) ->
    time_ordered (a :: b :: l).

(** [r] is the value at fraction [(t - tb) / (ta - tb)] on the line from
    [b] to [a], whenever both end values are finite. *)
Definition linear_between (tb ta t : Q) (b a r : num) : Prop :=
  forall x y, b = Fin x -> a = Fin y ->
    exists v, r = Fin v /\ v == x + ((t - tb) / (ta - tb)) * (y - x).

(** An oscillator field the charts can take: a finite number, or one of
    the values that [|| 0] and [> 0] set aside (NaN, undefined, null). *)
Definition usable (v : val) : Prop := v <> VNum PInf /\ v <> VNum NInf.

(** A sample with finite energies and usable oscillator fields. *)
Definition sample_usable (e : Exc.t) : Prop :=
  is_fin (Exc.s1_energy e) /\ is_fin (Exc.s2_energy e) /\
  usable (Exc.s1_oscillator e) /\ usable (Exc.s2_oscillator e).

(** The strength with which an oscillator field weighs: its value when it
    is a finite number, nothing otherwise. *)
Definition strength (v : val) : Q :=
  match v with VNum (Fin o) => o | _ => 0 end.

(** The display breakpoints, with the open-ended last one for a padded
    maximum [p]. *)
Definition breakpoint (p c : Q) : Prop :=
  c == 1 # 10 \/ c == 5 # 10 \/ c == 1 \/ c == 2 \/ c == 5 \/
  c == inject_Z (Qceiling p).

(** The energy of point [i] of the axis of the charts: 1000 points evenly
    spaced from 2 to 7 eV. *)
Definition axis_energy (i : nat) : Q :=
  2 + inject_Z (Z.of_nat i) * ((7 - 2) / (1000 - 1)).

Section SpectrumSpec.

Variable exp_Q : Q -> Q.

(** The closed-form Gaussian line of strength [o] centred at [en], with
    the fixed width 0.15. *)
Definition gaussian (o en E : Q) : Q :=
  o * exp_Q (- ((E - en) * (E - en)) / (2 * (15 # 100) * (15 # 100))).

(** The term of one transition: nothing unless its strength is positive. *)
Definition transition_term (o en E : Q) : Q :=
  if Qlt_bool 0 o then gaussian o en E else 0.

(** [v] is the spectrum synthesised for the sample [e] at the energy [E]:
    the sum of the Gaussian lines of its two transitions, each centred at
    the energy of the transition and weighted by its strength. *)
Definition synthesised (e : Exc.t) (E v : Q) : Prop :=
  exists e1 e2,
    Exc.s1_energy e = Fin e1 /\ Exc.s2_energy e = Fin e2 /\
    v == transition_term (strength (Exc.s1_oscillator e)) e1 E
         + transition_term (strength (Exc.s2_oscillator e)) e2 E.

(** [v] is a value observed for this series: an oscillator strength of a
    sample, or the spectrum synthesised for a sample at one of the 1000
    points of the axis. *)
Definition observed (data : list Exc.t) (v : Q) : Prop :=
  exists e, In e data /\
    (Exc.s1_oscillator e = VNum (Fin v) \/
     Exc.s2_oscillator e = VNum (Fin v) \/
     exists i, (i < 1000)%nat /\ synthesised e (axis_energy i) v).

(** [M] is the observed maximum. *)
Definition observed_max (data : list Exc.t) (M : Q) : Prop :=
  (exists v, observed data v /\ v == M) /\
  (forall v, observed data v -> v <= M).

(** [v] is a value the loop of [calculateGlobalYAxisMax] reads or
    computes: an oscillator strength of a sample, or a point of the list
    that [generateSpectrum] returns for a sample. *)
Definition computed (data : list Exc.t) (v : Q) : Prop :=
  exists e, In e data /\
    (Exc.s1_oscillator e = VNum (Fin v) \/
     Exc.s2_oscillator e = VNum (Fin v) \/
     In (Fin v)
        (generateSpectrum exp_Q
           (generateEnergyRange (Fin 2) (Fin 7) 1000) e)).

(** [M] is the largest computed value. *)
Definition computed_max (data : list Exc.t) (M : Q) : Prop :=
  (exists v, computed data v /\ v == M) /\
  (forall v, computed data v -> v <= M).

(** What the loop of [calculateGlobalYAxisMax] maintains after the samples
    [seen]: both running maxima are finite and non-negative, bound every
    computed value between them, and each is 0 or a computed value. *)
Definition yaxis_inv (seen : list Exc.t) (acc : num * num) : Prop :=
  exists a b,
    acc = (Fin a, Fin b) /\ 0 <= a /\ 0 <= b /\
    (forall v, computed seen v -> v <= a \/ v <= b) /\
    (a == 0 \/ exists v, computed seen v /\ v == a) /\
    (b == 0 \/ exists v, computed seen v /\ v == b).

End SpectrumSpec.

(** The threshold that applies to two element symbols. *)
Definition applicable_threshold (a b : string) : num :=
  if (String.eqb a "H" || String.eqb b "H")%bool
  then Fin (12 # 10) else Fin (18 # 10).

(** The symbol at index [i], empty when the list is too short. *)
Definition symbol_at (atoms : list string) (i : nat) : string :=
  nth i atoms EmptyString.

(** A rational approximation of the square root, to three decimals; it
    stands for [Math.sqrt] where the code is run on examples. *)
Definition sqrt_approx (q : Q) : Q :=
  Z.sqrt (Qnum q * 1000000 / Zpos (Qden q)) # 1000.

(** A four-term series for the exponential; it stands for [Math.exp] where
    the code is run on examples. *)
Definition exp_approx (q : Q) : Q :=
  1 + q + q * q / 2 + q * q * q / 6.

(** A rational function that is 1 at 0, positive everywhere and at most 1
    on arguments that are not positive; it stands for [Math.exp] where the
    shape of the Gaussian lines matters. *)
Definition exp_rational (q : Q) : Q := 1 / (1 - q + q * q / 2).

(** The descriptor gap of a cross-state pair: [|twist_s1 - twist_s2|]. *)
Definition gap (a b : Corr.t) : num :=
  Math_abs (nsub (Corr.twist_angle a) (Corr.twist_angle b)).

(** The S1-dominant and the S2-dominant members of a bin. *)
Definition s1_members (b : Bin.t) : list Corr.t :=
  filter Corr.s1_dominant (Bin.allFrames b).

Definition s2_members (b : Bin.t) : list Corr.t :=
  filter (fun d => negb (Corr.s1_dominant d)) (Bin.allFrames b).

(** One turn of the inner loop of [findBestComparisonPair], on a pair. *)
Definition cross_step (bestPair : ComparisonPair) (p : Corr.t * Corr.t)
  : ComparisonPair :=
  pair_step (fst p) bestPair (snd p).

(** What the loops maintain after the pairs [seen]: the best pair so far
    and its gap, no larger than any gap seen. *)
Definition best_so_far (seen : list (Corr.t * Corr.t)) (bp : ComparisonPair)
  : Prop :=
  (seen = [] /\ bp = mkPair None None (Some PInf)) \/
  (exists a b, In (a, b) seen /\
     bp = mkPair (Some a) (Some b) (Some (gap a b)) /\
     forall a' b', In (a', b') seen -> nle (gap a b) (gap a' b') = true).

(** The distance in time from a sample to [t]: [|time_fs - t|]. *)
Definition time_gap (e : Exc.t) (t : num) : num :=
  Math_abs (nsub (Exc.time_fs e) t).

(** What the nearest-sample loop holds after the samples [seen]: the
    earliest sample at the least distance, with that distance. *)
Definition nearest_so_far (t : num) (seen : list Exc.t)
  (acc : option Exc.t * num) : Prop :=
  (seen = [] /\ acc = (None, PInf)) \/
  (exists i e,
     nth_error seen i = Some e /\ acc = (Some e, time_gap e t) /\
     (forall e', In e' seen -> nle (time_gap e t) (time_gap e' t) = true) /\
     (forall j e', (j < i)%nat -> nth_error seen j = Some e' ->
        nlt (time_gap e t) (time_gap e' t) = true)).

(** The part of an oscillator strength that shows in the spectrum. *)
Definition positive_part (o : Q) : Q := if Qlt_bool 0 o then o else 0.

(** The order in which the two loops of [createBonds] visit the pairs. *)
Definition lex_lt (a b : nat * nat) : Prop :=
  (fst a < fst b)%nat \/ (fst a = fst b /\ (snd a < snd b)%nat).

(** A position with three finite components. *)
Definition fin3 (q : Q * Q * Q) : vec3 :=
  let '(x, y, z) := q in (Fin x, Fin y, Fin z).

(** A point all of whose coordinates are finite numbers. *)
Definition finite_point (c : vec3) : Prop := exists p, c = fin3 p.

(** The Euclidean distance of two points with rational coordinates,
    [sqrt(dx^2 + dy^2 + dz^2)]; the square root is the one the code is
    given. *)
Definition euclidean_distance (sqrt_Q : Q -> Q) (p q : Q * Q * Q) : Q :=
  let '(x1, y1, z1) := p in
  let '(x2, y2, z2) := q in
  sqrt_Q ((x1 - x2) ^ 2 + (y1 - y2) ^ 2 + (z1 - z2) ^ 2).


(** ** Example data *)

(** A stored sample at time [t] fs with the two oscillator strengths; the
    energies are fixed at 3.5 and 4.2 eV. *)
Definition sample_osc (t : Q) (o1 o2 : val) : Exc.t :=
  {| Exc.time_fs := Fin t;
     Exc.time_ps := Fin (t / 1000);
     Exc.s1_energy := Fin (35 # 10);
     Exc.s1_oscillator := o1;
     Exc.s2_energy := Fin (42 # 10);
     Exc.s2_oscillator := o2;
     Exc.energy_gap := Fin (7 # 10);
     Exc.s1_dipole := Some (Fin 1, Fin 0, Fin 0);
     Exc.s2_dipole := Some (Fin 0, Fin 1, Fin 0);
     Exc.interpolated := false |}.

Definition sample (t o1 o2 : Q) : Exc.t :=
  sample_osc t (VNum (Fin o1)) (VNum (Fin o2)).

(** A sample whose two transitions lie on the first point of the axis, so
    that their lines add up to a peak of 0.7 there. *)
Definition twin_sample : Exc.t :=
  {| Exc.time_fs := Fin 0;
     Exc.time_ps := Fin 0;
     Exc.s1_energy := Fin 2;
     Exc.s1_oscillator := VNum (Fin (3 # 10));
     Exc.s2_energy := Fin 2;
     Exc.s2_oscillator := VNum (Fin (4 # 10));
     Exc.energy_gap := Fin 0;
     Exc.s1_dipole := None;
     Exc.s2_dipole := None;
     Exc.interpolated := false |}.

(** A sample whose S1 energy is not a number, as a missing or unparsable
    energy is once the code subtracts it; its S1 strength is 0.5. *)
Definition nan_energy_sample : Exc.t :=
  {| Exc.time_fs := Fin 0;
     Exc.time_ps := Fin 0;
     Exc.s1_energy := NaN;
     Exc.s1_oscillator := VNum (Fin (5 # 10));
     Exc.s2_energy := Fin (42 # 10);
     Exc.s2_oscillator := VNum (Fin (1 # 10));
     Exc.energy_gap := NaN;
     Exc.s1_dipole := None;
     Exc.s2_dipole := None;
     Exc.interpolated := false |}.

(** The series of the end-to-end example: samples every 100 fs. *)
Definition ex_series : list Exc.t :=
  [ sample 0 (1 # 10) (4 # 10);
    sample 100 (3 # 10) (2 # 10);
    sample 200 (5 # 10) (1 # 10);
    sample 300 (2 # 10) (3 # 10);
    sample 400 (5 # 100) (5 # 10) ].

(** A geometry frame at time [t] fs with twist angle [tw]. *)
Definition frame (n : nat) (t tw : Q) : Geom.t :=
  {| Geom.twist_angle := Fin tw;
     Geom.ring_planarity := Fin (1 # 100);
     Geom.time_ps := Fin (t / 1000);
     Geom.time_fs := Fin t;
     Geom.frame_number := n |}.

Definition ex_geometry : list Geom.t :=
  [ frame 0 0 0; frame 1 100 5; frame 2 210 3 ].

(** The entry that the frame at 100 fs of [ex_geometry] pushes on
    [correlationData], matched to the sample at 100 fs. *)
Definition ex_entry : Corr.t :=
  {| Corr.twist_angle := Fin 5;
     Corr.ring_planarity := Fin (1 # 100);
     Corr.s1_oscillator := VNum (Fin (3 # 10));
     Corr.s2_oscillator := VNum (Fin (2 # 10));
     Corr.time_ps := Fin (100 / 1000);
     Corr.time_fs := Fin 100;
     Corr.frame_number := 1;
     Corr.s1_dominant := true |}.

(** A correlated frame with twist angle [tw]. *)
Definition corr (n : nat) (tw : Q) (dominant : bool) : Corr.t :=
  {| Corr.twist_angle := Fin tw;
     Corr.ring_planarity := Fin (1 # 100);
     Corr.s1_oscillator := VNum (Fin (if dominant then 3 # 10 else 1 # 10));
     Corr.s2_oscillator := VNum (Fin (2 # 10));
     Corr.time_ps := Fin 0;
     Corr.time_fs := Fin 0;
     Corr.frame_number := n;
     Corr.s1_dominant := dominant |}.

(** Four correlated frames within one 5-degree bin. *)
Definition ex_corrs : list Corr.t :=
  [ corr 0 0 false; corr 1 3 true; corr 2 4 false; corr 3 1 true ].

(** The sum of [totalCount] over the recorded bins. *)
Definition total_binned (bins : list Bin.t) : nat :=
  fold_right (fun b n => (Bin.totalCount b + n)%nat) 0%nat bins.

(** * Properties *)

(** ** Numbers *)

Lemma Qlt_bool_iff (a b : Q) : Qlt_bool a b = true <-> a < b.
Proof.
  unfold Qlt_bool. rewrite negb_true_iff.
  split; intro H.
  - apply Qnot_le_lt. intro Hle. apply Qle_bool_iff in Hle. congruence.
  - destruct (Qle_bool b a) eqn:E; [|reflexivity].
    apply Qle_bool_iff in E. exfalso. apply (Qlt_not_le _ _ H E).
Qed.

Lemma nlt_Fin (a b : Q) : nlt (Fin a) (Fin b) = true <-> a < b.
Proof. apply Qlt_bool_iff. Qed.

Lemma nle_Fin (a b : Q) : nle (Fin a) (Fin b) = true <-> a <= b.
Proof. apply Qle_bool_iff. Qed.

Lemma nlt_false_Fin (a b : Q) : nlt (Fin a) (Fin b) = false <-> b <= a.
Proof.
  rewrite <- not_true_iff_false, nlt_Fin.
  split; [apply Qnot_lt_le | intros H H'; apply (Qlt_not_le _ _ H' H)].
Qed.

Lemma nle_false_Fin (a b : Q) : nle (Fin a) (Fin b) = false <-> b < a.
Proof.
  rewrite <- not_true_iff_false, nle_Fin.
  split; [apply Qnot_le_lt | intros H H'; apply (Qlt_not_le _ _ H H')].
Qed.

Lemma nlt_irrefl (a : num) : nlt a a = false.
Proof.
  destruct a; simpl; try reflexivity.
  apply nlt_false_Fin. apply Qle_refl.
Qed.

Lemma nlt_trans (a b c : num) :
  nlt a b = true -> nlt b c = true -> nlt a c = true.
Proof.
  destruct a, b, c; simpl; try congruence.
  rewrite !Qlt_bool_iff. apply Qlt_trans.
Qed.

Lemma nlt_nle (a b : num) : nlt a b = true -> nle a b = true.
Proof.
  destruct a, b; simpl; try congruence.
  rewrite Qlt_bool_iff, Qle_bool_iff. apply Qlt_le_weak.
Qed.

Lemma nlt_asym (a b : num) : nlt a b = true -> nle b a = false.
Proof.
  destruct a, b; simpl; try congruence.
  rewrite Qlt_bool_iff. intro H. apply nle_false_Fin. exact H.
Qed.

Lemma num_eq_not_lt (a b : num) : num_eq a b -> nlt b a = false.
Proof.
  destruct a, b; simpl; try tauto.
  intro H. apply nlt_false_Fin. rewrite H. apply Qle_refl.
Qed.

Lemma nmax2_Fin (a b : Q) :
  nmax2 (Fin a) (Fin b) = Fin (if Qlt_bool a b then b else a).
Proof. unfold nmax2, nlt. now destruct (Qlt_bool a b). Qed.

(** [Math.max] over finite numbers, started from a finite maximum. *)
Lemma fold_nmax2_finite (l : list num) (a : Q) :
  Forall is_fin l ->
  exists m,
    fold_left nmax2 l (Fin a) = Fin m /\ a <= m /\
    (forall q, In (Fin q) l -> q <= m) /\
    (m = a \/ In (Fin m) l).
Proof.
  revert a. induction l as [|x l IH]; intros a Hl.
  - exists a. simpl. repeat split; [apply Qle_refl | tauto | now left].
  - inversion Hl as [|? ? [q ->] Hl']; subst.
    cbn [fold_left]. rewrite nmax2_Fin.
    destruct (IH (if Qlt_bool a q then q else a) Hl')
      as (m & Hm & Hle & Hall & Hat).
    exists m. split; [exact Hm|].
    destruct (Qlt_bool a q) eqn:Hlt.
    + apply Qlt_bool_iff in Hlt. repeat split.
      * lra.
      * intros q' [E|Hin]; [injection E as <-; exact Hle | now apply Hall].
      * destruct Hat as [->|Hin]; right; [now left | now right].
    + assert (Hqa : q <= a).
      { apply Qnot_lt_le. intro H. apply Qlt_bool_iff in H. congruence. }
      repeat split.
      * exact Hle.
      * intros q' [E|Hin]; [injection E as <-; lra | now apply Hall].
      * destruct Hat as [->|Hin]; [now left | right; now right].
Qed.

Lemma Math_max_finite (l : list num) :
  Forall is_fin l -> l <> [] ->
  exists m, Math_max l = Fin m /\ In (Fin m) l /\
            forall q, In (Fin q) l -> q <= m.
Proof.
  intros Hl Hne. destruct l as [|x l]; [congruence|].
  inversion Hl as [|? ? [q ->] Hl']; subst.
  unfold Math_max. cbn [fold_left].
  change (nmax2 NInf (Fin q)) with (Fin q).
  destruct (fold_nmax2_finite l q Hl') as (m & Hm & Hle & Hall & Hat).
  exists m. split; [exact Hm|]. split.
  - destruct Hat as [->|Hin]; [now left | now right].
  - intros q' [E|Hin]; [injection E as <-; exact Hle | now apply Hall].
Qed.

Lemma nmin2_Fin (a b : Q) :
  nmin2 (Fin a) (Fin b) = Fin (if Qlt_bool b a then b else a).
Proof. unfold nmin2, nlt. now destruct (Qlt_bool b a). Qed.

(** [Math.min] over finite numbers, started from a finite minimum. *)
Lemma fold_nmin2_finite (l : list num) (a : Q) :
  Forall is_fin l ->
  exists m,
    fold_left nmin2 l (Fin a) = Fin m /\ m <= a /\
    (forall q, In (Fin q) l -> m <= q) /\
    (m = a \/ In (Fin m) l).
Proof.
  revert a. induction l as [|x l IH]; intros a Hl.
  - exists a. simpl. repeat split; [apply Qle_refl | tauto | now left].
  - inversion Hl as [|? ? [q ->] Hl']; subst.
    cbn [fold_left]. rewrite nmin2_Fin.
    destruct (IH (if Qlt_bool q a then q else a) Hl')
      as (m & Hm & Hle & Hall & Hat).
    exists m. split; [exact Hm|].
    destruct (Qlt_bool q a) eqn:Hlt.
    + apply Qlt_bool_iff in Hlt. repeat split.
      * lra.
      * intros q' [E|Hin]; [injection E as <-; exact Hle | now apply Hall].
      * destruct Hat as [->|Hin]; right; [now left | now right].
    + assert (Hqa : a <= q).
      { apply Qnot_lt_le. intro H. apply Qlt_bool_iff in H. congruence. }
      repeat split.
      * exact Hle.
      * intros q' [E|Hin]; [injection E as <-; lra | now apply Hall].
      * destruct Hat as [->|Hin]; [now left | right; now right].
Qed.

Lemma Math_min_finite (l : list num) :
  Forall is_fin l -> l <> [] ->
  exists m, Math_min l = Fin m /\ In (Fin m) l /\
            forall q, In (Fin q) l -> m <= q.
Proof.
  intros Hl Hne. destruct l as [|x l]; [congruence|].
  inversion Hl as [|? ? [q ->] Hl']; subst.
  unfold Math_min. cbn [fold_left].
  change (nmin2 PInf (Fin q)) with (Fin q).
  destruct (fold_nmin2_finite l q Hl') as (m & Hm & Hle & Hall & Hat).
  exists m. split; [exact Hm|]. split.
  - destruct Hat as [->|Hin]; [now left | now right].
  - intros q' [E|Hin]; [injection E as <-; exact Hle | now apply Hall].
Qed.

(** ** Pushing in a loop *)

Lemma fold_push_opt {A B} (f : B -> option A) (l : list B) (acc : list A) :
  fold_left (fun acc x => push_opt acc (f x)) l acc
  = acc ++ flat_map (fun x => olist (f x)) l.
Proof.
  revert acc. induction l as [|x l IH]; intro acc; simpl.
  - now rewrite app_nil_r.
  - rewrite IH. destruct (f x); simpl.
    + now rewrite <- app_assoc.
    + reflexivity.
Qed.

Lemma correlationData_flat (geo : list Geom.t) (exc : list Exc.t) :
  correlationData geo exc
  = flat_map (fun g => olist (correlate_frame exc g)) geo.
Proof. unfold correlationData. now rewrite fold_push_opt. Qed.

Lemma correlationData_app (g1 g2 : list Geom.t) (exc : list Exc.t) :
  correlationData (g1 ++ g2) exc
  = correlationData g1 exc ++ correlationData g2 exc.
Proof. rewrite !correlationData_flat. apply flat_map_app. Qed.

Lemma correlationData_In (geo : list Geom.t) (exc : list Exc.t) (d : Corr.t) :
  In d (correlationData geo exc) <->
  exists g, In g geo /\ correlate_frame exc g = Some d.
Proof.
  rewrite correlationData_flat, in_flat_map.
  split; intros (g & Hg & H); exists g; split; auto.
  - destruct (correlate_frame exc g); simpl in H; [|tauto].
    destruct H; [congruence|tauto].
  - rewrite H. now left.
Qed.

(** ** The correlation builder *)

(** The record pushed for a frame matched to sample [e]. *)
Lemma correlate_frame_Some (exc : list Exc.t) (g : Geom.t) (d : Corr.t) :
  correlate_frame exc g = Some d ->
  exists e minTimeDiff,
    closest_scan (Geom.time_fs g) exc = (Some e, minTimeDiff) /\
    nlt minTimeDiff (Fin 50) = true /\
    typeof_number (Exc.s1_oscillator e) = true /\
    typeof_number (Exc.s2_oscillator e) = true /\
    Corr.s1_oscillator d = Exc.s1_oscillator e /\
    Corr.s2_oscillator d = Exc.s2_oscillator e /\
    Corr.twist_angle d = Geom.twist_angle g /\
    Corr.frame_number d = Geom.frame_number g /\
    Corr.s1_dominant d = vgt (Exc.s1_oscillator e) (Exc.s2_oscillator e).
Proof.
  unfold correlate_frame.
  destruct (closest_scan (Geom.time_fs g) exc) as [[e|] m]; [|discriminate].
  destruct (nlt m (Fin 50)) eqn:Hm; [|discriminate].
  destruct (typeof_number (Exc.s1_oscillator e)) eqn:H1; [|discriminate].
  destruct (typeof_number (Exc.s2_oscillator e)) eqn:H2; [|discriminate].
  simpl. intro H. injection H as <-. exists e, m. simpl. tauto.
Qed.

Lemma correlate_frame_dropped (exc : list Exc.t) (g : Geom.t) (e : Exc.t)
  (minTimeDiff : num) :
  closest_scan (Geom.time_fs g) exc = (Some e, minTimeDiff) ->
  typeof_number (Exc.s1_oscillator e) = false \/
  typeof_number (Exc.s2_oscillator e) = false ->
  correlate_frame exc g = None.
Proof.
  intros Hc Ht. unfold correlate_frame. rewrite Hc.
  destruct (nlt minTimeDiff (Fin 50)); simpl; [|reflexivity].
  destruct Ht as [-> | ->]; simpl; [reflexivity|].
  now rewrite andb_false_r.
Qed.

Lemma correlate_frame_kept (exc : list Exc.t) (g : Geom.t) (e : Exc.t)
  (minTimeDiff : num) :
  closest_scan (Geom.time_fs g) exc = (Some e, minTimeDiff) ->
  nlt minTimeDiff (Fin 50) = true ->
  typeof_number (Exc.s1_oscillator e) = true ->
  typeof_number (Exc.s2_oscillator e) = true ->
  exists d, correlate_frame exc g = Some d /\
    Corr.s1_oscillator d = Exc.s1_oscillator e /\
    Corr.s2_oscillator d = Exc.s2_oscillator e /\
    Corr.frame_number d = Geom.frame_number g.
Proof.
  intros Hc Hm H1 H2. unfold correlate_frame. rewrite Hc, Hm, H1, H2. simpl.
  eexists. split; [reflexivity|]. simpl. tauto.
Qed.

(** C7 -- every entry of [correlationData] carries two oscillator strengths
    of type number, and its label [s1_dominant] is true exactly when the
    first is strictly greater than the second; when the two are equal the
    label is false, that is, the frame counts as S2-dominant. *)
Theorem C7_dominant_label (geo : list Geom.t) (exc : list Exc.t) (d : Corr.t) :
  In d (correlationData geo exc) ->
  exists n1 n2,
    Corr.s1_oscillator d = VNum n1 /\
    Corr.s2_oscillator d = VNum n2 /\
    (Corr.s1_dominant d = true <-> nlt n2 n1 = true) /\
    (num_eq n1 n2 -> Corr.s1_dominant d = false) /\
    (forall x y, n1 = Fin x -> n2 = Fin y ->
       (Corr.s1_dominant d = true <-> y < x)).
Proof.
  intro Hin. apply correlationData_In in Hin as (g & _ & Hg).
  apply correlate_frame_Some in Hg
    as (e & m & _ & _ & H1 & H2 & E1 & E2 & _ & _ & Hd).
  destruct (Exc.s1_oscillator e) as [n1| |] eqn:V1; try discriminate.
  destruct (Exc.s2_oscillator e) as [n2| |] eqn:V2; try discriminate.
  exists n1, n2. rewrite Hd. unfold vgt, ngt. simpl.
  split; [exact E1|]. split; [exact E2|].
  split; [tauto|]. split; [apply num_eq_not_lt|].
  intros x y -> ->. apply nlt_Fin.
Qed.

Lemma C7_dominant_label_witness :
  In ex_entry (correlationData ex_geometry ex_series) /\
  exists n1 n2,
    Corr.s1_oscillator ex_entry = VNum n1 /\
    Corr.s2_oscillator ex_entry = VNum n2 /\
    (Corr.s1_dominant ex_entry = true <-> nlt n2 n1 = true) /\
    (num_eq n1 n2 -> Corr.s1_dominant ex_entry = false) /\
    (forall x y, n1 = Fin x -> n2 = Fin y ->
       (Corr.s1_dominant ex_entry = true <-> y < x)).
Proof.
  assert (H : In ex_entry (correlationData ex_geometry ex_series))
    by (vm_compute; right; left; reflexivity).
  split; [exact H|].
  exact (C7_dominant_label ex_geometry ex_series ex_entry H).
Defined.

(** C3, as stated, fails: a frame matched within 50 fs to a sample whose
    [s1_oscillator] is NaN is pushed on [correlationData], since
    [typeof NaN] is ['number']. *)
Lemma C3_nan_oscillator_kept :
  ~ (forall (pre post : list Geom.t) (g : Geom.t) (exc : list Exc.t)
            (e : Exc.t) (m : num),
        closest_scan (Geom.time_fs g) exc = (Some e, m) ->
        not_finite_number (Exc.s1_oscillator e) \/
        not_finite_number (Exc.s2_oscillator e) ->
        correlationData (pre ++ g :: post) exc
        = correlationData pre exc ++ correlationData post exc).
Proof.
  intro H.
  specialize (H [] [] (frame 0 0 10)
                [sample_osc 0 (VNum NaN) (VNum (Fin (2 # 10)))]
                (sample_osc 0 (VNum NaN) (VNum (Fin (2 # 10))))
                (Fin (Qabs (0 + - 0)))).
  assert (Hc : closest_scan (Geom.time_fs (frame 0 0 10))
                 [sample_osc 0 (VNum NaN) (VNum (Fin (2 # 10)))]
               = (Some (sample_osc 0 (VNum NaN) (VNum (Fin (2 # 10)))),
                  Fin (Qabs (0 + - 0)))) by reflexivity.
  specialize (H Hc (or_introl (or_introl eq_refl))).
  vm_compute in H. discriminate H.
Qed.

(** C3, amended -- the guard is [typeof ... === 'number']: a frame whose
    nearest sample has an [s1_oscillator] or [s2_oscillator] that is not of
    type number (undefined or null) is left out of [correlationData], frame
    by frame, the frames before and after it being processed as usual; a
    nearest sample within 50 fs whose two oscillator strengths are of type
    number, NaN and the infinities included, puts the frame in. *)
Theorem C3_type_guard (pre post : list Geom.t) (g : Geom.t)
  (exc : list Exc.t) (e : Exc.t) (m : num) :
  closest_scan (Geom.time_fs g) exc = (Some e, m) ->
  (typeof_number (Exc.s1_oscillator e) = false \/
   typeof_number (Exc.s2_oscillator e) = false ->
   correlationData (pre ++ g :: post) exc
   = correlationData pre exc ++ correlationData post exc) /\
  (nlt m (Fin 50) = true ->
   typeof_number (Exc.s1_oscillator e) = true ->
   typeof_number (Exc.s2_oscillator e) = true ->
   exists d,
     correlationData (pre ++ g :: post) exc
     = correlationData pre exc ++ d :: correlationData post exc /\
     Corr.s1_oscillator d = Exc.s1_oscillator e /\
     Corr.s2_oscillator d = Exc.s2_oscillator e /\
     Corr.frame_number d = Geom.frame_number g).
Proof.
  intro Hc.
  change (g :: post) with ([g] ++ post).
  rewrite !correlationData_app.
  split.
  - intro Ht. rewrite (correlationData_flat [g]). simpl.
    now rewrite (correlate_frame_dropped exc g e m Hc Ht).
  - intros Hm H1 H2.
    destruct (correlate_frame_kept exc g e m Hc Hm H1 H2) as (d & Hd & Hf).
    exists d. split; [|exact Hf].
    rewrite (correlationData_flat [g]). simpl. now rewrite Hd.
Qed.

Lemma C3_type_guard_witness :
  correlationData
    ([frame 0 0 10] ++ frame 1 100 12 :: [frame 2 200 14])
    [sample 0 (1 # 10) (4 # 10);
     sample_osc 100 VUndefined (VNum (Fin (2 # 10)));
     sample 200 (5 # 10) (1 # 10)]
  = correlationData [frame 0 0 10]
      [sample 0 (1 # 10) (4 # 10);
       sample_osc 100 VUndefined (VNum (Fin (2 # 10)));
       sample 200 (5 # 10) (1 # 10)]
    ++ correlationData [frame 2 200 14]
      [sample 0 (1 # 10) (4 # 10);
       sample_osc 100 VUndefined (VNum (Fin (2 # 10)));
       sample 200 (5 # 10) (1 # 10)].
Proof.
  refine (proj1 (C3_type_guard [frame 0 0 10] [frame 2 200 14]
                   (frame 1 100 12) _
                   (sample_osc 100 VUndefined (VNum (Fin (2 # 10))))
                   (Fin (Qabs (100 + - 100))) _) _).
  - vm_compute. reflexivity.
  - left. reflexivity.
Defined.

(** ** The representative pair *)

Section BestPair.

(** The two nested loops visit the cross pairs in the order of
    [list_prod]. *)
Lemma nested_loops_prod (s1 s2 : list Corr.t) (init : ComparisonPair) :
  fold_left (fun bestPair a => fold_left (pair_step a) s2 bestPair) s1 init
  = fold_left cross_step (list_prod s1 s2) init.
Proof.
  revert init. induction s1 as [|a s1 IH]; intro init; simpl; [reflexivity|].
  rewrite fold_left_app, IH. f_equal.
  clear. revert init. induction s2 as [|b s2 IH]; intro init; simpl; auto.
Qed.

Lemma gap_finite (a b : Corr.t) :
  is_fin (Corr.twist_angle a) -> is_fin (Corr.twist_angle b) ->
  is_fin (gap a b).
Proof. intros [x Hx] [y Hy]. unfold gap. rewrite Hx, Hy. simpl. eexists; reflexivity. Qed.

Lemma nle_refl_fin (x : num) : is_fin x -> nle x x = true.
Proof. intros [q ->]. apply nle_Fin, Qle_refl. Qed.

Lemma best_so_far_step (seen : list (Corr.t * Corr.t)) (bp : ComparisonPair)
  (p : Corr.t * Corr.t) :
  (forall q, In q (seen ++ [p]) -> is_fin (gap (fst q) (snd q))) ->
  best_so_far seen bp -> best_so_far (seen ++ [p]) (cross_step bp p).
Proof.
  intros Hfin Hb. destruct p as [a b].
  assert (Hab : is_fin (gap a b))
    by (apply (Hfin (a, b)), in_or_app; right; now left).
  unfold cross_step, pair_step. simpl fst. simpl snd. fold (gap a b).
  destruct Hb as [[-> ->] | (a0 & b0 & Hin & -> & Hmin)].
  - simpl null_as_zero. destruct Hab as [q Hq]. rewrite Hq. simpl.
    right. exists a, b. rewrite Hq. repeat split.
    + now left.
    + intros a' b' [E|[]]. injection E as <- <-. rewrite Hq.
      apply nle_Fin, Qle_refl.
  - simpl null_as_zero.
    assert (H0 : is_fin (gap a0 b0))
      by (apply (Hfin (a0, b0)), in_or_app; now left).
    destruct Hab as [q Hq]. destruct H0 as [q0 Hq0].
    rewrite Hq, Hq0.
    destruct (nlt (Fin q) (Fin q0)) eqn:Hlt; right.
    + exists a, b. rewrite Hq. repeat split.
      * apply in_or_app. right. now left.
      * intros a' b' Hin'. apply in_app_or in Hin' as [Hin'|[E|[]]].
        -- specialize (Hmin a' b' Hin'). rewrite Hq0 in Hmin.
           assert (H' : is_fin (gap a' b'))
             by (apply (Hfin (a', b')), in_or_app; now left).
           destruct H' as [q' Hq']. rewrite Hq' in *.
           apply nle_Fin in Hmin. apply nlt_Fin in Hlt. apply nle_Fin.
           apply Qlt_le_weak. eapply Qlt_le_trans; eauto.
        -- injection E as <- <-. rewrite Hq. apply nle_Fin, Qle_refl.
    + exists a0, b0. rewrite Hq0. repeat split.
      * apply in_or_app. now left.
      * intros a' b' Hin'. apply in_app_or in Hin' as [Hin'|[E|[]]].
        -- specialize (Hmin a' b' Hin'). now rewrite Hq0 in Hmin.
        -- injection E as <- <-. rewrite Hq.
           apply nlt_false_Fin in Hlt. now apply nle_Fin.
Qed.

Lemma best_so_far_fold (ps seen : list (Corr.t * Corr.t))
  (bp : ComparisonPair) :
  (forall q, In q (seen ++ ps) -> is_fin (gap (fst q) (snd q))) ->
  best_so_far seen bp -> best_so_far (seen ++ ps) (fold_left cross_step ps bp).
Proof.
  revert seen bp. induction ps as [|p ps IH]; intros seen bp Hfin Hb; simpl.
  - now rewrite app_nil_r.
  - replace (seen ++ p :: ps) with ((seen ++ [p]) ++ ps) in *
      by (now rewrite <- app_assoc).
    apply IH; [exact Hfin|].
    apply best_so_far_step; [|exact Hb].
    intros q Hq. apply Hfin, in_or_app. now left.
Qed.

(** On two non-empty lists of frames with finite twist angles the
    function returns a cross pair of minimal gap. *)
Lemma findBestComparisonPair_minimal (s1 s2 : list Corr.t) :
  (forall d, In d (s1 ++ s2) -> is_fin (Corr.twist_angle d)) ->
  s1 <> [] -> s2 <> [] ->
  exists a b, In a s1 /\ In b s2 /\
    findBestComparisonPair s1 s2
    = mkPair (Some a) (Some b) (Some (gap a b)) /\
    forall a' b', In a' s1 -> In b' s2 -> nle (gap a b) (gap a' b') = true.
Proof.
  intros Hfin H1 H2. unfold findBestComparisonPair.
  destruct s1 as [|x1 s1]; [congruence|].
  destruct s2 as [|x2 s2]; [congruence|].
  cbn [length Nat.eqb orb]. rewrite nested_loops_prod.
  pose proof (best_so_far_fold (list_prod (x1 :: s1) (x2 :: s2)) []
                (mkPair None None (Some PInf))) as H.
  cbn [app] in H.
  destruct H as [[H _] | (a & b & Hin & -> & Hmin)].
  - intros [a b] Hq. apply in_prod_iff in Hq as [Ha Hb].
    apply gap_finite; apply Hfin, in_or_app; [now left | now right].
  - left. split; reflexivity.
  - simpl in H. discriminate H.
  - apply in_prod_iff in Hin as [Ha Hb].
    exists a, b. repeat split; auto.
    intros a' b' Ha' Hb'. apply Hmin. now apply in_prod_iff.
Qed.

Lemma findBestComparisonPair_empty (s1 s2 : list Corr.t) :
  s1 = [] \/ s2 = [] ->
  findBestComparisonPair s1 s2 = mkPair (hd_error s1) (hd_error s2) None.
Proof.
  intros [-> | ->]; unfold findBestComparisonPair; simpl; [reflexivity|].
  now rewrite orb_true_r.
Qed.

End BestPair.

(** A member of a bin has a finite twist angle: it passed
    [twist_angle >= binStart && twist_angle < binStart + 5]. *)
Lemma in_bin_finite (binStart : num) (d : Corr.t) :
  in_bin binStart (nadd binStart binSize) d = true ->
  is_fin (Corr.twist_angle d).
Proof.
  unfold in_bin, nge. rewrite andb_true_iff. intros [Hge Hlt].
  destruct (Corr.twist_angle d) as [q| | |].
  - eexists; reflexivity.
  - destruct (nadd binStart binSize); discriminate.
  - destruct binStart; simpl in *; discriminate.
  - destruct binStart; discriminate.
Qed.

Lemma bin_of_index_frames (correlationData : list Corr.t) (i : nat)
  (bin : Bin.t) :
  bin_of_index correlationData i = Some bin ->
  Bin.allFrames bin = pointsInBin correlationData i /\
  Bin.totalCount bin = length (pointsInBin correlationData i) /\
  pointsInBin correlationData i <> [] /\
  Bin.exampleS1Frame bin
  = option_map Corr.frame_number
      (s1Frame (findBestComparisonPair (s1_members bin) (s2_members bin))) /\
  Bin.exampleS2Frame bin
  = option_map Corr.frame_number
      (s2Frame (findBestComparisonPair (s1_members bin) (s2_members bin))) /\
  Bin.s1TwistAngle bin
  = option_map Corr.twist_angle
      (s1Frame (findBestComparisonPair (s1_members bin) (s2_members bin))) /\
  Bin.s2TwistAngle bin
  = option_map Corr.twist_angle
      (s2Frame (findBestComparisonPair (s1_members bin) (s2_members bin))) /\
  Bin.twistAngleDifference bin
  = twistDifference (findBestComparisonPair (s1_members bin) (s2_members bin)).
Proof.
  unfold bin_of_index.
  destruct (0 <? length (pointsInBin correlationData i))%nat eqn:Hlen;
    [|discriminate].
  intro H. injection H as <-. unfold s1_members, s2_members. simpl.
  repeat split; try reflexivity.
  intro E. rewrite E in Hlen. discriminate.
Qed.

(** C6 -- in every bin that [createDMABNChart] records, when both the
    S1-dominant and the S2-dominant members are present, the example frames
    are such a cross pair, the recorded twist-angle difference is its gap,
    and no other cross pair of the bin has a smaller gap; when one side has
    no member, its example frame is null and the recorded difference is
    null. *)
Theorem C6_representative_pair (correlationData : list Corr.t) (i : nat)
  (bin : Bin.t) :
  bin_of_index correlationData i = Some bin ->
  (s1_members bin <> [] -> s2_members bin <> [] ->
   exists a b,
     In a (s1_members bin) /\ In b (s2_members bin) /\
     Bin.exampleS1Frame bin = Some (Corr.frame_number a) /\
     Bin.exampleS2Frame bin = Some (Corr.frame_number b) /\
     Bin.s1TwistAngle bin = Some (Corr.twist_angle a) /\
     Bin.s2TwistAngle bin = Some (Corr.twist_angle b) /\
     Bin.twistAngleDifference bin = Some (gap a b) /\
     forall a' b', In a' (s1_members bin) -> In b' (s2_members bin) ->
       nle (gap a b) (gap a' b') = true) /\
  (s1_members bin = [] ->
   Bin.exampleS1Frame bin = None /\ Bin.twistAngleDifference bin = None) /\
  (s2_members bin = [] ->
   Bin.exampleS2Frame bin = None /\ Bin.twistAngleDifference bin = None).
Proof.
  intro Hb.
  destruct (bin_of_index_frames _ _ _ Hb)
    as (Hall & _ & _ & E1 & E2 & T1 & T2 & TD).
  split; [|split].
  - intros H1 H2.
    destruct (findBestComparisonPair_minimal (s1_members bin) (s2_members bin))
      as (a & b & Ha & Hb' & Hp & Hmin); auto.
    { intros d Hd. apply in_app_or in Hd.
      assert (Hin : In d (pointsInBin correlationData i)).
      { rewrite <- Hall. unfold s1_members, s2_members in Hd.
        destruct Hd as [Hd|Hd]; apply filter_In in Hd; tauto. }
      unfold pointsInBin in Hin. apply filter_In in Hin as [_ Hin].
      eapply in_bin_finite; eauto. }
    exists a, b. rewrite E1, E2, T1, T2, TD, Hp. simpl. repeat split; auto.
  - intro H1. rewrite E1, TD, findBestComparisonPair_empty by now left.
    rewrite H1. split; reflexivity.
  - intro H2. rewrite E2, TD, findBestComparisonPair_empty by now right.
    rewrite H2. split; reflexivity.
Qed.

Lemma C6_representative_pair_witness :
  exists bin,
    bin_of_index ex_corrs 0 = Some bin /\
    (s1_members bin <> [] -> s2_members bin <> [] ->
     exists a b,
       In a (s1_members bin) /\ In b (s2_members bin) /\
       Bin.exampleS1Frame bin = Some (Corr.frame_number a) /\
       Bin.exampleS2Frame bin = Some (Corr.frame_number b) /\
       Bin.s1TwistAngle bin = Some (Corr.twist_angle a) /\
       Bin.s2TwistAngle bin = Some (Corr.twist_angle b) /\
       Bin.twistAngleDifference bin = Some (gap a b) /\
       forall a' b', In a' (s1_members bin) -> In b' (s2_members bin) ->
         nle (gap a b) (gap a' b') = true) /\
    (s1_members bin = [] ->
     Bin.exampleS1Frame bin = None /\ Bin.twistAngleDifference bin = None) /\
    (s2_members bin = [] ->
     Bin.exampleS2Frame bin = None /\ Bin.twistAngleDifference bin = None).
Proof.
  eexists. split.
  - vm_compute. reflexivity.
  - apply (C6_representative_pair ex_corrs 0). vm_compute. reflexivity.
Defined.

(** ** The bins *)

(** The range of the twist angles of a non-empty list of frames, and the
    number of turns of the bin loop. *)
Lemma twist_range (corr : list Corr.t) :
  corr <> [] ->
  (forall d, In d corr -> is_fin (Corr.twist_angle d)) ->
  exists lo hi,
    minTwist corr = Fin lo /\ maxTwist corr = Fin hi /\
    (forall d x, In d corr -> Corr.twist_angle d = Fin x -> lo <= x <= hi) /\
    (exists d, In d corr /\ Corr.twist_angle d = Fin hi) /\
    loop_indices (numBins corr)
    = Some (seq 0 (Z.to_nat (Qceiling ((hi - lo) / 5)))).
Proof.
  intros Hne Hfin.
  assert (Hall : Forall is_fin (map Corr.twist_angle corr)).
  { apply Forall_forall. intros x Hx.
    apply in_map_iff in Hx as (d & <- & Hd). now apply Hfin. }
  assert (Hne' : map Corr.twist_angle corr <> []).
  { destruct corr; [congruence | discriminate]. }
  destruct (Math_min_finite _ Hall Hne') as (lo & Hlo & _ & Hlo_le).
  destruct (Math_max_finite _ Hall Hne') as (hi & Hhi & Hhi_in & Hhi_le).
  exists lo, hi. unfold minTwist, maxTwist, numBins.
  unfold minTwist, maxTwist. rewrite Hlo, Hhi.
  split; [reflexivity|]. split; [reflexivity|]. split; [|split].
  - intros d x Hd Hx. split.
    + apply Hlo_le. rewrite <- Hx. now apply in_map.
    + apply Hhi_le. rewrite <- Hx. now apply in_map.
  - apply in_map_iff in Hhi_in as (d & Hd & Hin). now exists d.
  - change (ndiv (nsub (Fin hi) (Fin lo)) binSize)
      with (Fin ((hi - lo) / 5)).
    cbn [Math_ceil loop_indices]. now rewrite Qceiling_Z.
Qed.

(** Membership in the bin of index [i]. *)
Lemma pointsInBin_In (corr : list Corr.t) (lo : Q) (i : nat) (d : Corr.t) :
  minTwist corr = Fin lo ->
  (In d (pointsInBin corr i) <->
   In d corr /\
   exists x, Corr.twist_angle d = Fin x /\
     lo + inject_Z (Z.of_nat i) * 5 <= x /\
     x < lo + inject_Z (Z.of_nat i) * 5 + 5).
Proof.
  intro Hlo. unfold pointsInBin, binStart_of. rewrite Hlo.
  rewrite filter_In. unfold in_bin, nge, binSize, num_of_nat.
  cbn [nmul nadd].
  split.
  - intros [Hin Hb]. split; [exact Hin|].
    apply andb_true_iff in Hb as [H1 H2].
    destruct (Corr.twist_angle d) as [x| | |]; try discriminate.
    exists x. split; [reflexivity|].
    apply nle_Fin in H1. apply nlt_Fin in H2. now split.
  - intros [Hin (x & -> & H1 & H2)]. split; [exact Hin|].
    apply andb_true_iff. split; [now apply nle_Fin | now apply nlt_Fin].
Qed.

Lemma bin_of_index_member (corr : list Corr.t) (i : nat) (d : Corr.t) :
  In d (pointsInBin corr i) ->
  exists b, bin_of_index corr i = Some b /\
            Bin.allFrames b = pointsInBin corr i.
Proof.
  intro Hd. unfold bin_of_index.
  destruct (0 <? length (pointsInBin corr i))%nat eqn:Hlen.
  - eexists. split; reflexivity.
  - apply Nat.ltb_ge in Hlen.
    destruct (pointsInBin corr i); [destruct Hd | simpl in Hlen; lia].
Qed.

Lemma binData_bins (corr : list Corr.t) (n : nat) :
  loop_indices (numBins corr) = Some (seq 0 n) ->
  exists bins,
    binData corr = Some bins /\
    forall b, In b bins <->
              exists i, (i < n)%nat /\ bin_of_index corr i = Some b.
Proof.
  intro Hl. unfold binData. rewrite Hl. cbn [option_map].
  eexists. split; [reflexivity|].
  intro b. rewrite fold_push_opt. cbn [app]. rewrite in_flat_map.
  split.
  - intros (i & Hi & Hb). apply in_seq in Hi.
    exists i. split; [lia|].
    destruct (bin_of_index corr i) as [b'|]; [|destruct Hb].
    destruct Hb as [->|[]]. reflexivity.
  - intros (i & Hi & Hb). exists i. split; [apply in_seq; lia|].
    rewrite Hb. now left.
Qed.

(** Which frames the loop bins: those whose twist angle lies below
    [minTwist + 5 * numBins]. *)
Lemma frame_binned_iff (corr : list Corr.t) :
  corr <> [] ->
  (forall d, In d corr -> is_fin (Corr.twist_angle d)) ->
  exists lo hi bins,
    minTwist corr = Fin lo /\ maxTwist corr = Fin hi /\
    binData corr = Some bins /\
    forall d x, In d corr -> Corr.twist_angle d = Fin x ->
      ((exists b, In b bins /\ In d (Bin.allFrames b)) <->
       x < lo + 5 * inject_Z (Qceiling ((hi - lo) / 5))).
Proof.
  intros Hne Hfin.
  destruct (twist_range corr Hne Hfin)
    as (lo & hi & Hlo & Hhi & Hrange & _ & Hloop).
  destruct (binData_bins corr _ Hloop) as (bins & Hbins & Hin_bins).
  exists lo, hi, bins. repeat (split; [assumption|]).
  intros d x Hd Hx.
  set (N := Qceiling ((hi - lo) / 5)) in *.
  split.
  - intros (b & Hb & Hdb).
    apply Hin_bins in Hb as (i & Hi & Hbi).
    destruct (bin_of_index_frames _ _ _ Hbi) as (Hall & _).
    rewrite Hall in Hdb.
    apply (pointsInBin_In corr lo i d Hlo) in Hdb
      as (_ & x' & Hx' & _ & Hlt).
    rewrite Hx in Hx'. injection Hx' as <-.
    assert (HiN : (Z.of_nat i + 1 <= N)%Z) by lia.
    rewrite Zle_Qle, inject_Z_plus in HiN.
    change (inject_Z 1) with 1 in HiN. lra.
  - intro Hlt.
    destruct (Hrange d x Hd Hx) as [Hlox _].
    set (q := (x - lo) / 5).
    assert (Hq : q * 5 == x - lo) by (unfold q; field).
    assert (Hq0 : 0 <= q) by lra.
    assert (Hf0 : (0 <= Qfloor q)%Z).
    { change 0%Z with (Qfloor 0). now apply Qfloor_resp_le. }
    pose proof (Qfloor_le q) as Hfl.
    pose proof (Qlt_floor q) as Hfu.
    rewrite inject_Z_plus in Hfu. change (inject_Z 1) with 1 in Hfu.
    assert (HfN : (Qfloor q < N)%Z).
    { rewrite Zlt_Qlt. lra. }
    assert (Hmem : In d (pointsInBin corr (Z.to_nat (Qfloor q)))).
    { apply (pointsInBin_In corr lo _ d Hlo). split; [exact Hd|].
      exists x. split; [exact Hx|].
      rewrite Z2Nat.id by exact Hf0. split; lra. }
    destruct (bin_of_index_member _ _ _ Hmem) as (b & Hb & Hall).
    exists b. split; [|now rewrite Hall].
    apply Hin_bins. exists (Z.to_nat (Qfloor q)). split; [lia | exact Hb].
Qed.

(** When the range of the twist angles is a whole number of bins, the
    frames at the maximum are in no bin. *)
Lemma max_frame_dropped (corr : list Corr.t) (lo hi : Q) (k : Z)
  (bins : list Bin.t) (d : Corr.t) (b : Bin.t) :
  (forall d, In d corr -> is_fin (Corr.twist_angle d)) ->
  minTwist corr = Fin lo -> maxTwist corr = Fin hi ->
  (hi - lo) / 5 == inject_Z k ->
  binData corr = Some bins ->
  In d corr -> Corr.twist_angle d = Fin hi ->
  In b bins -> ~ In d (Bin.allFrames b).
Proof.
  intros Hfin Hlo Hhi Hk Hbins Hd Hx Hb Hdb.
  assert (Hne : corr <> []) by (intros ->; destruct Hd).
  destruct (frame_binned_iff corr Hne Hfin)
    as (lo' & hi' & bins' & Hlo' & Hhi' & Hbins' & Hiff).
  rewrite Hlo in Hlo'. injection Hlo' as <-.
  rewrite Hhi in Hhi'. injection Hhi' as <-.
  rewrite Hbins in Hbins'. injection Hbins' as <-.
  assert (Hlt : hi < lo + 5 * inject_Z (Qceiling ((hi - lo) / 5))).
  { apply (Hiff d hi Hd Hx). now exists b. }
  rewrite (Qceiling_comp _ _ Hk), Qceiling_Z in Hlt.
  assert (E : hi - lo == 5 * inject_Z k) by (rewrite <- Hk; field).
  lra.
Qed.

(** No frame is counted in two bins. *)
Lemma frame_in_one_bin (corr : list Corr.t) (bins : list Bin.t)
  (b1 b2 : Bin.t) (d : Corr.t) :
  binData corr = Some bins ->
  In b1 bins -> In b2 bins ->
  In d (Bin.allFrames b1) -> In d (Bin.allFrames b2) -> b1 = b2.
Proof.
  unfold binData.
  destruct (loop_indices (numBins corr)) as [indices|]; [|discriminate].
  cbn [option_map]. intro H. injection H as <-.
  rewrite fold_push_opt. cbn [app]. rewrite !in_flat_map.
  intros (i1 & _ & H1) (i2 & _ & H2) Hd1 Hd2.
  destruct (bin_of_index corr i1) as [c1|] eqn:E1; [|destruct H1].
  destruct (bin_of_index corr i2) as [c2|] eqn:E2; [|destruct H2].
  destruct H1 as [->|[]]. destruct H2 as [->|[]].
  destruct (bin_of_index_frames _ _ _ E1) as (A1 & _).
  destruct (bin_of_index_frames _ _ _ E2) as (A2 & _).
  rewrite A1 in Hd1. rewrite A2 in Hd2.
  assert (Hi : i1 = i2).
  { unfold pointsInBin, binStart_of in Hd1, Hd2.
    apply filter_In in Hd1 as [_ Hd1]. apply filter_In in Hd2 as [_ Hd2].
    unfold in_bin, nge, binSize, num_of_nat in Hd1, Hd2.
    apply andb_true_iff in Hd1 as [L1 U1].
    apply andb_true_iff in Hd2 as [L2 U2].
    destruct (Corr.twist_angle d) as [x| | |]; try discriminate;
      destruct (minTwist corr) as [lo| | |]; try discriminate.
    cbn [nmul nadd] in L1, U1, L2, U2.
    apply nle_Fin in L1, L2. apply nlt_Fin in U1, U2.
    assert (H12 : (Z.of_nat i1 < Z.of_nat i2 + 1)%Z).
    { rewrite Zlt_Qlt, inject_Z_plus. change (inject_Z 1) with 1. lra. }
    assert (H21 : (Z.of_nat i2 < Z.of_nat i1 + 1)%Z).
    { rewrite Zlt_Qlt, inject_Z_plus. change (inject_Z 1) with 1. lra. }
    lia. }
  subst i2. congruence.
Qed.

(** A recorded bin has at least one member: empty bins are left out. *)
Lemma binData_nonempty_bins (correlationData : list Corr.t)
  (bins : list Bin.t) (b : Bin.t) :
  binData correlationData = Some bins -> In b bins ->
  (0 < Bin.totalCount b)%nat /\ Bin.allFrames b <> [].
Proof.
  unfold binData.
  destruct (loop_indices (numBins correlationData)) as [indices|];
    [|discriminate].
  cbn [option_map]. intro H. injection H as <-.
  rewrite fold_push_opt. cbn [app]. rewrite in_flat_map.
  intros (i & _ & Hb).
  destruct (bin_of_index correlationData i) as [b'|] eqn:Hi; [|destruct Hb].
  destruct Hb as [<-|[]].
  destruct (bin_of_index_frames _ _ _ Hi) as (Hall & Hcount & Hne & _).
  rewrite Hcount, Hall. split; [|exact Hne].
  destruct (pointsInBin correlationData i); [congruence | simpl; lia].
Qed.

(** C2 -- where the code departs from the claim.  The loop runs over
    [ceil((maxTwist - minTwist) / 5)] half-open bins and nothing clamps the
    upper end: a single valid frame gives no bin at all, and of two valid
    frames with twist angles 0 and 5 only the first is binned, so the bin
    totals add up to 1 and not to 2. *)
Theorem C2_upper_boundary_frame_dropped :
  (forall (tw : Q) (rp : num) (o1 o2 : val) (tps tfs : num) (n : nat)
          (dom : bool),
      binData [Corr.mk (Fin tw) rp o1 o2 tps tfs n dom] = Some []) /\
  (exists b,
      binData [corr 0 0 false; corr 1 5 true] = Some [b] /\
      Bin.allFrames b = [corr 0 0 false] /\
      total_binned [b] = 1%nat /\
      length [corr 0 0 false; corr 1 5 true] = 2%nat).
Proof.
  split.
  - intros. unfold binData, numBins, minTwist, maxTwist. simpl.
    rewrite Qceiling_Z.
    assert (E : (tw + - tw) / 5 == 0) by field.
    rewrite E. reflexivity.
  - eexists. split; [vm_compute; reflexivity|].
    repeat split.
Qed.

(** ** The temporal aligner *)

Lemma nlt_not_sym (a b : num) : nlt a b = true -> nlt b a = false.
Proof.
  destruct a, b; simpl; try congruence.
  rewrite Qlt_bool_iff. intro H. apply nlt_false_Fin. now apply Qlt_le_weak.
Qed.

Lemma time_ordered_tail (a : Exc.t) (l : list Exc.t) :
  time_ordered (a :: l) -> time_ordered l.
Proof. inversion 1; subst; [constructor | assumption]. Qed.

(** In an ordered series the head is earlier than every later sample. *)
Lemma time_ordered_head (a : Exc.t) (l : list Exc.t) (i : nat) (b : Exc.t) :
  time_ordered (a :: l) -> nth_error l i = Some b ->
  nlt (Exc.time_fs a) (Exc.time_fs b) = true.
Proof.
  revert a i. induction l as [|c l IH]; intros a i Ho Hn.
  - destruct i; discriminate.
  - inversion Ho; subst. destruct i as [|i]; simpl in Hn.
    + now injection Hn as <-.
    + eapply nlt_trans; [eassumption|]. eapply IH; eassumption.
Qed.

(** ... and the last sample is later than every earlier one. *)
Lemma time_ordered_last (l : list Exc.t) (d : Exc.t) (i : nat) (b : Exc.t) :
  time_ordered l -> nth_error l i = Some b ->
  b = last l d \/ nlt (Exc.time_fs b) (Exc.time_fs (last l d)) = true.
Proof.
  revert i b. induction l as [|a l IH]; intros i b Ho Hn.
  - destruct i; discriminate.
  - destruct l as [|c l].
    + destruct i as [|[|i]]; simpl in Hn; try discriminate.
      injection Hn as <-. now left.
    + change (last (a :: c :: l) d) with (last (c :: l) d).
      destruct i as [|i]; simpl in Hn.
      * injection Hn as <-. right.
        destruct (IH 0%nat c (time_ordered_tail _ _ Ho) eq_refl) as [E|E].
        -- rewrite <- E. now inversion Ho.
        -- eapply nlt_trans; [|exact E]. now inversion Ho.
      * apply (IH i); [eapply time_ordered_tail; eauto | exact Hn].
Qed.

Lemma find_beforeIndex_cons (k : nat) (a b : Exc.t) (l : list Exc.t) (t : num) :
  find_beforeIndex k (a :: b :: l) t
  = if nle (Exc.time_fs a) t && nge (Exc.time_fs b) t
    then Some k
    else find_beforeIndex (S k) (b :: l) t.
Proof. reflexivity. Qed.

(** The search loop stops at the pair that strictly brackets [t]. *)
Lemma find_beforeIndex_bracket (data : list Exc.t) (k i : nat)
  (before after : Exc.t) (t : num) :
  time_ordered data ->
  nth_error data i = Some before ->
  nth_error data (S i) = Some after ->
  nlt (Exc.time_fs before) t = true ->
  nlt t (Exc.time_fs after) = true ->
  find_beforeIndex k data t = Some (k + i)%nat.
Proof.
  revert data k. induction i as [|i IH]; intros data k Ho Hb Ha Hlo Hhi.
  - destruct data as [|x [|y rest]]; simpl in Hb, Ha; try discriminate.
    injection Hb as ->. injection Ha as ->.
    simpl. unfold nge. rewrite (nlt_nle _ _ Hlo), (nlt_nle _ _ Hhi). simpl.
    now rewrite Nat.add_0_r.
  - destruct data as [|x [|y rest]]; try discriminate.
    simpl in Hb. change (nth_error (y :: rest) (S i) = Some after) in Ha.
    assert (Hy : nlt (Exc.time_fs y) t = true).
    { destruct i as [|i]; simpl in Hb.
      - now injection Hb as ->.
      - eapply nlt_trans; [|exact Hlo].
        eapply time_ordered_head; [eapply time_ordered_tail; eauto|eauto]. }
    rewrite find_beforeIndex_cons. unfold nge at 1.
    rewrite (nlt_asym _ _ Hy), andb_false_r.
    replace (k + S i)%nat with (S k + i)%nat by lia.
    apply IH; auto.
    eapply time_ordered_tail; eauto.
Qed.

(** Strictly inside a bracket of an ordered series the function returns the
    interpolated object built from the two bracketing samples. *)
Lemma find_interpolates (data : list Exc.t) (i : nat) (before after : Exc.t)
  (t : num) :
  time_ordered data ->
  nth_error data i = Some before ->
  nth_error data (S i) = Some after ->
  nlt (Exc.time_fs before) t = true ->
  nlt t (Exc.time_fs after) = true ->
  findClosestExcitationData (Some data) t = Some (interpolate before after t).
Proof.
  intros Ho Hb Ha Hlo Hhi.
  destruct data as [|first rest]; [destruct i; discriminate|].
  unfold findClosestExcitationData.
  assert (H1 : nlt t (Exc.time_fs first) = false).
  { destruct i as [|i]; simpl in Hb.
    - injection Hb as ->. now apply nlt_not_sym.
    - apply nlt_not_sym. eapply nlt_trans; [|exact Hlo].
      eapply time_ordered_head; eauto. }
  rewrite H1.
  assert (H2 : ngt t (Exc.time_fs (last (first :: rest) first)) = false).
  { unfold ngt.
    destruct (time_ordered_last _ first _ _ Ho Ha) as [E|E].
    - rewrite <- E. now apply nlt_not_sym.
    - apply nlt_not_sym. eapply nlt_trans; eauto. }
  rewrite H2.
  rewrite (find_beforeIndex_bracket _ 0 i before after t Ho Hb Ha Hlo Hhi).
  cbn [Nat.add].
  rewrite (nth_error_nth _ _ first Hb).
  rewrite Nat.add_1_r.
  now rewrite (nth_error_nth _ _ first Ha).
Qed.

Lemma fraction_finite (tb ta t : Q) :
  tb < ta ->
  ndiv (nsub (Fin t) (Fin tb)) (nsub (Fin ta) (Fin tb))
  = Fin ((t + - tb) / (ta + - tb)).
Proof.
  intro H. simpl.
  destruct (Qeq_bool (ta + - tb) 0) eqn:E; [|reflexivity].
  apply Qeq_bool_iff in E. exfalso. lra.
Qed.

(** C4 -- for an ordered series and a query time strictly between the
    times of two consecutive samples, the function returns an object
    flagged [interpolated: true], dated at the query time, whose two
    energies and two oscillator strengths each lie on the straight line
    between the bracketing values at the fraction
    [(t - t_before) / (t_after - t_before)], and whose [energy_gap] is the
    difference of its own two energies. *)
Theorem C4_interpolation (data : list Exc.t) (i : nat) (before after : Exc.t)
  (tb ta t : Q) :
  time_ordered data ->
  nth_error data i = Some before ->
  nth_error data (S i) = Some after ->
  Exc.time_fs before = Fin tb ->
  Exc.time_fs after = Fin ta ->
  tb < t -> t < ta ->
  exists r n1 n2,
    findClosestExcitationData (Some data) (Fin t) = Some r /\
    Exc.interpolated r = true /\
    Exc.time_fs r = Fin t /\
    Exc.time_ps r = Fin (t / 1000) /\
    linear_between tb ta t
      (Exc.s1_energy before) (Exc.s1_energy after) (Exc.s1_energy r) /\
    linear_between tb ta t
      (Exc.s2_energy before) (Exc.s2_energy after) (Exc.s2_energy r) /\
    Exc.s1_oscillator r = VNum n1 /\
    linear_between tb ta t
      (toNumber (Exc.s1_oscillator before))
      (toNumber (Exc.s1_oscillator after)) n1 /\
    Exc.s2_oscillator r = VNum n2 /\
    linear_between tb ta t
      (toNumber (Exc.s2_oscillator before))
      (toNumber (Exc.s2_oscillator after)) n2 /\
    Exc.energy_gap r = nsub (Exc.s2_energy r) (Exc.s1_energy r).
Proof.
  intros Ho Hb Ha Etb Eta Hlo Hhi.
  assert (Hf : findClosestExcitationData (Some data) (Fin t)
               = Some (interpolate before after (Fin t))).
  { apply (find_interpolates data i); auto.
    - rewrite Etb. now apply nlt_Fin.
    - rewrite Eta. now apply nlt_Fin. }
  assert (Hlt : tb < ta) by (eapply Qlt_trans; eauto).
  assert (Hline : forall b a,
    linear_between tb ta t b a
      (nadd b (nmul (ndiv (nsub (Fin t) (Fin tb)) (nsub (Fin ta) (Fin tb)))
                    (nsub a b)))).
  { intros b a x y -> ->. rewrite (fraction_finite tb ta t Hlt). simpl.
    eexists. split; [reflexivity|]. unfold Qminus. reflexivity. }
  eexists. eexists. eexists.
  split; [exact Hf|].
  unfold interpolate. rewrite Etb, Eta. cbn [Exc.interpolated Exc.time_fs
    Exc.time_ps Exc.s1_energy Exc.s2_energy Exc.s1_oscillator
    Exc.s2_oscillator Exc.energy_gap].
  repeat (split; [first [reflexivity | apply Hline]|]).
  reflexivity.
Qed.

Lemma C4_interpolation_witness :
  exists r o1 o2,
    findClosestExcitationData (Some ex_series) (Fin 150) = Some r /\
    Exc.interpolated r = true /\
    Exc.s1_oscillator r = VNum (Fin o1) /\
    Exc.s2_oscillator r = VNum (Fin o2) /\
    o1 == 4 # 10 /\ o2 == 15 # 100 /\
    vgt (Exc.s1_oscillator r) (Exc.s2_oscillator r) = true.
Proof.
  destruct (C4_interpolation ex_series 1
              (sample 100 (3 # 10) (2 # 10)) (sample 200 (5 # 10) (1 # 10))
              100 200 150)
    as (r & n1 & n2 & Hf & Hi & _ & _ & _ & _ & E1 & L1 & E2 & L2 & _).
  - repeat constructor.
  - reflexivity.
  - reflexivity.
  - reflexivity.
  - reflexivity.
  - reflexivity.
  - reflexivity.
  - destruct (L1 (3 # 10) (5 # 10) eq_refl eq_refl) as (v1 & -> & Hv1).
    destruct (L2 (2 # 10) (1 # 10) eq_refl eq_refl) as (v2 & -> & Hv2).
    exists r, v1, v2.
    split; [exact Hf|]. split; [exact Hi|].
    split; [exact E1|]. split; [exact E2|].
    split; [rewrite Hv1; reflexivity|].
    split; [rewrite Hv2; reflexivity|].
    rewrite E1, E2. unfold vgt, ngt. simpl. apply Qlt_bool_iff.
    rewrite Hv1, Hv2. reflexivity.
Defined.

(** Below the first sample the stored first sample itself is returned. *)
Lemma find_clamps_below (first : Exc.t) (rest : list Exc.t) (t : num) :
  nlt t (Exc.time_fs first) = true ->
  findClosestExcitationData (Some (first :: rest)) t = Some first.
Proof. intro H. unfold findClosestExcitationData. now rewrite H. Qed.

(** Above the last sample the stored last sample itself is returned. *)
Lemma find_clamps_above (first : Exc.t) (rest : list Exc.t) (t : num) :
  nlt t (Exc.time_fs first) = false ->
  nlt (Exc.time_fs (last (first :: rest) first)) t = true ->
  findClosestExcitationData (Some (first :: rest)) t
  = Some (last (first :: rest) first).
Proof.
  intros H0 H. unfold findClosestExcitationData.
  rewrite H0. unfold ngt. now rewrite H.
Qed.

(** The search loop finds a pair as soon as one brackets [t], ends
    included. *)
Lemma find_beforeIndex_some (data : list Exc.t) (k i : nat)
  (before after : Exc.t) (t : num) :
  nth_error data i = Some before ->
  nth_error data (S i) = Some after ->
  nle (Exc.time_fs before) t = true ->
  nle t (Exc.time_fs after) = true ->
  exists j, find_beforeIndex k data t = Some j.
Proof.
  revert data k. induction i as [|i IH]; intros data k Hb Ha Hlo Hhi.
  - destruct data as [|x [|y rest]]; simpl in Hb, Ha; try discriminate.
    injection Hb as ->. injection Ha as ->.
    rewrite find_beforeIndex_cons. unfold nge. rewrite Hlo, Hhi.
    eexists; reflexivity.
  - destruct data as [|x [|y rest]]; try discriminate.
    rewrite find_beforeIndex_cons.
    destruct (nle (Exc.time_fs x) t && nge (Exc.time_fs y) t).
    + eexists; reflexivity.
    + apply IH; assumption.
Qed.

Lemma nlt_nle_refl_l (a b : num) : nlt a b = true -> nle a a = true.
Proof.
  destruct a, b; simpl; try congruence; intros _; apply Qle_bool_iff, Qle_refl.
Qed.

Lemma nlt_nle_refl_r (a b : num) : nlt a b = true -> nle b b = true.
Proof.
  destruct a, b; simpl; try congruence; intros _; apply Qle_bool_iff, Qle_refl.
Qed.

(** At the time of any stored sample of an ordered series of two or more
    samples, the function does not return the stored sample: it builds an
    interpolated object from a pair of neighbours. *)
Lemma knot_query_interpolates (data : list Exc.t) (i : nat) (s : Exc.t) :
  time_ordered data -> (2 <= length data)%nat ->
  nth_error data i = Some s ->
  exists before after,
    findClosestExcitationData (Some data) (Exc.time_fs s)
    = Some (interpolate before after (Exc.time_fs s)).
Proof.
  intros Ho Hlen Hs.
  destruct data as [|first rest]; [simpl in Hlen; lia|].
  unfold findClosestExcitationData.
  assert (H1 : nlt (Exc.time_fs s) (Exc.time_fs first) = false).
  { destruct i as [|i]; simpl in Hs.
    - injection Hs as ->. apply nlt_irrefl.
    - apply nlt_not_sym. eapply time_ordered_head; eauto. }
  rewrite H1.
  assert (H2 : ngt (Exc.time_fs s)
                 (Exc.time_fs (last (first :: rest) first)) = false).
  { unfold ngt. destruct (time_ordered_last _ first _ _ Ho Hs) as [E|E].
    - rewrite <- E. apply nlt_irrefl.
    - now apply nlt_not_sym. }
  rewrite H2.
  assert (Hj : exists j,
             find_beforeIndex 0 (first :: rest) (Exc.time_fs s) = Some j).
  { destruct (nth_error (first :: rest) (S i)) as [a|] eqn:Ha.
    - assert (Hlt : nlt (Exc.time_fs s) (Exc.time_fs a) = true).
      { clear H1 H2 Hlen. revert i Hs Ha Ho. generalize (first :: rest).
        intros l i. revert l. induction i as [|i IH]; intros l Hs Ha Ho.
        - destruct l as [|x [|y l]]; simpl in Hs, Ha; try discriminate.
          injection Hs as ->. injection Ha as ->. now inversion Ho.
        - destruct l as [|x l]; [discriminate|].
          apply (IH l); auto. eapply time_ordered_tail; eauto. }
      apply (find_beforeIndex_some _ 0 i s a); auto.
      + eapply nlt_nle_refl_l; eauto.
      + now apply nlt_nle.
    - destruct i as [|i].
      + apply nth_error_None in Ha. simpl in Ha, Hlen. lia.
      + destruct (nth_error (first :: rest) i) as [b|] eqn:Hb.
        * assert (Hlt : nlt (Exc.time_fs b) (Exc.time_fs s) = true).
          { clear H1 H2 Hlen Ha. revert i Hs Hb Ho. generalize (first :: rest).
            intros l i. revert l. induction i as [|i IH]; intros l Hs Hb Ho.
            - destruct l as [|x [|y l]]; simpl in Hs, Hb; try discriminate.
              injection Hs as ->. injection Hb as ->. now inversion Ho.
            - destruct l as [|x l]; [discriminate|].
              apply (IH l); auto. eapply time_ordered_tail; eauto. }
          apply (find_beforeIndex_some _ 0 i b s); auto.
          -- now apply nlt_nle.
          -- eapply nlt_nle_refl_r; eauto.
        * apply nth_error_None in Hb.
          assert (Hi : (S i < length (first :: rest))%nat)
            by (apply nth_error_Some; congruence).
          lia. }
  destruct Hj as [j ->]. eexists. eexists. reflexivity.
Qed.

(** C1 -- where the code departs from the claim.  On the five-sample
    series, a query at the time of the stored sample at 100 fs, at the time
    of the first sample and at the time of the last one does not return the
    stored sample: the result is a fresh object flagged
    [interpolated: true], without the dipole fields of the stored sample. *)
Theorem C1_knot_query_interpolated :
  In (sample 100 (3 # 10) (2 # 10)) ex_series /\
  (exists r,
     findClosestExcitationData (Some ex_series) (Fin 100) = Some r /\
     Exc.interpolated r = true /\
     Exc.s1_dipole r = None /\
     r <> sample 100 (3 # 10) (2 # 10)) /\
  (exists r,
     findClosestExcitationData (Some ex_series) (Fin 0) = Some r /\
     Exc.interpolated r = true) /\
  (exists r,
     findClosestExcitationData (Some ex_series) (Fin 400) = Some r /\
     Exc.interpolated r = true).
Proof.
  split; [right; left; reflexivity|].
  split; [|split].
  - eexists. split; [vm_compute; reflexivity|].
    split; [reflexivity|]. split; [reflexivity|]. discriminate.
  - eexists. split; [vm_compute; reflexivity|]. reflexivity.
  - eexists. split; [vm_compute; reflexivity|]. reflexivity.
Qed.

(** ** The spectrum *)

Section SpectrumProps.

Variable exp_Q : Q -> Q.

(** A transition with finite data contributes its closed-form Gaussian. *)
Lemma contribution_finite (o en E : Q) :
  contribution exp_Q (VNum (Fin o)) (Fin en) (Fin E)
  = Fin (gaussian exp_Q o en E).
Proof. reflexivity. Qed.

Lemma intensity_at_finite (excitation : Exc.t) (o1 e1 o2 e2 E : Q) :
  Exc.s1_oscillator excitation = VNum (Fin o1) ->
  Exc.s1_energy excitation = Fin e1 ->
  Exc.s2_oscillator excitation = VNum (Fin o2) ->
  Exc.s2_energy excitation = Fin e2 ->
  exists v,
    intensity_at exp_Q excitation (Fin E) = Fin v /\
    v == transition_term exp_Q o1 e1 E + transition_term exp_Q o2 e2 E /\
    (o1 <= 0 -> o2 <= 0 -> v = 0).
Proof.
  intros O1 E1 O2 E2. unfold intensity_at, transition_term.
  rewrite O1, E1, O2, E2, !contribution_finite.
  unfold vgt, ngt. cbn [toNumber nlt].
  destruct (Qlt_bool 0 o1) eqn:H1; destruct (Qlt_bool 0 o2) eqn:H2;
    cbn [nadd]; eexists; (split; [reflexivity|]); (split; [ring|]);
    intros N1 N2; try reflexivity; exfalso;
    try (apply Qlt_bool_iff in H1; lra);
    try (apply Qlt_bool_iff in H2; lra).
Qed.

(** C8 -- for a sample with finite energies and oscillator strengths,
    [generateSpectrum] returns one intensity per axis point, equal at the
    point [E] to the sum over the two transitions of
    [osc * exp(-(E - energy)^2 / (2 * 0.15^2))], a transition whose
    strength is not positive counting for zero; with no positive strength
    every intensity is exactly 0, and with a single positive strength the
    intensity is the Gaussian of that transition alone. *)
Theorem C8_spectrum_formula (energyRange : list num) (excitation : Exc.t)
  (o1 e1 o2 e2 : Q) :
  Exc.s1_oscillator excitation = VNum (Fin o1) ->
  Exc.s1_energy excitation = Fin e1 ->
  Exc.s2_oscillator excitation = VNum (Fin o2) ->
  Exc.s2_energy excitation = Fin e2 ->
  length (generateSpectrum exp_Q energyRange excitation) = length energyRange /\
  (forall i E, nth_error energyRange i = Some (Fin E) ->
     exists v,
       nth_error (generateSpectrum exp_Q energyRange excitation) i
       = Some (Fin v) /\
       v == transition_term exp_Q o1 e1 E + transition_term exp_Q o2 e2 E /\
       (0 < o1 -> o2 <= 0 -> v == gaussian exp_Q o1 e1 E) /\
       (o1 <= 0 -> 0 < o2 -> v == gaussian exp_Q o2 e2 E)) /\
  (o1 <= 0 -> o2 <= 0 ->
     forall x, In x (generateSpectrum exp_Q energyRange excitation) ->
       x = Fin 0) /\
  (o1 <= 0 -> o2 <= 0 ->
     forall i E, nth_error energyRange i = Some (Fin E) ->
       nth_error (generateSpectrum exp_Q energyRange excitation) i
       = Some (Fin 0)).
Proof.
  intros O1 E1 O2 E2. unfold generateSpectrum.
  split; [apply length_map|]. split; [|split].
  - intros i E Hi. rewrite nth_error_map, Hi. simpl.
    destruct (intensity_at_finite excitation o1 e1 o2 e2 E O1 E1 O2 E2)
      as (v & -> & Hv & _).
    exists v. split; [reflexivity|]. split; [exact Hv|].
    unfold transition_term in Hv. split; intros Ha Hb.
    + apply Qlt_bool_iff in Ha. rewrite Ha in Hv.
      assert (H2 : Qlt_bool 0 o2 = false).
      { destruct (Qlt_bool 0 o2) eqn:H; [|reflexivity].
        apply Qlt_bool_iff in H. lra. }
      rewrite H2 in Hv. rewrite Hv. ring.
    + apply Qlt_bool_iff in Hb. rewrite Hb in Hv.
      assert (H1 : Qlt_bool 0 o1 = false).
      { destruct (Qlt_bool 0 o1) eqn:H; [|reflexivity].
        apply Qlt_bool_iff in H. lra. }
      rewrite H1 in Hv. rewrite Hv. ring.
  - intros N1 N2 x Hx. apply in_map_iff in Hx as (E & <- & HE).
    unfold intensity_at. rewrite O1, O2. unfold vgt, ngt. cbn [toNumber nlt].
    assert (H1 : Qlt_bool 0 o1 = false).
    { destruct (Qlt_bool 0 o1) eqn:H; [|reflexivity].
      apply Qlt_bool_iff in H. lra. }
    assert (H2 : Qlt_bool 0 o2 = false).
    { destruct (Qlt_bool 0 o2) eqn:H; [|reflexivity].
      apply Qlt_bool_iff in H. lra. }
    now rewrite H1, H2.
  - intros N1 N2 i E Hi. rewrite nth_error_map, Hi. simpl.
    destruct (intensity_at_finite excitation o1 e1 o2 e2 E O1 E1 O2 E2)
      as (v & -> & _ & Hz).
    now rewrite (Hz N1 N2).
Qed.

End SpectrumProps.

Lemma C8_spectrum_formula_witness :
  exists v,
    nth_error (generateSpectrum exp_approx [Fin 3; Fin 4]
                 (sample 0 (1 # 10) (4 # 10))) 0
    = Some (Fin v) /\
    v == transition_term exp_approx (1 # 10) (35 # 10) 3
         + transition_term exp_approx (4 # 10) (42 # 10) 3.
Proof.
  destruct (proj1 (proj2 (C8_spectrum_formula exp_approx [Fin 3; Fin 4]
                            (sample 0 (1 # 10) (4 # 10))
                            (1 # 10) (35 # 10) (4 # 10) (42 # 10)
                            eq_refl eq_refl eq_refl eq_refl))
                  0%nat 3 eq_refl) as (v & Hv & Hsum & _).
  exists v. split; [exact Hv | exact Hsum].
Defined.

(** ** The fixed y-axis maximum *)

Lemma or_zero_usable (v : val) :
  usable v ->
  exists o', or_zero v = Fin o' /\
    ((exists o, v = VNum (Fin o) /\ o' == o) \/
     (o' = 0 /\ forall q, v <> VNum (Fin q))).
Proof.
  intros [Hp Hn]. destruct v as [[o| | |]| |]; try congruence.
  - unfold or_zero. destruct (Qeq_bool o 0) eqn:E.
    + exists 0. split; [reflexivity|]. left. exists o.
      split; [reflexivity|]. apply Qeq_bool_iff in E. now rewrite E.
    + exists o. split; [reflexivity|]. left. exists o. split; reflexivity.
  - exists 0. split; [reflexivity|]. right. split; [reflexivity | discriminate].
  - exists 0. split; [reflexivity|]. right. split; [reflexivity | discriminate].
  - exists 0. split; [reflexivity|]. right. split; [reflexivity | discriminate].
Qed.

(** The cascade returns a breakpoint that is not below the padded value. *)
Lemma nice_max_spec (p : Q) :
  exists c, nice_max (Fin p) = Fin c /\ p <= c /\ breakpoint p c.
Proof.
  unfold nice_max, breakpoint.
  destruct (nle (Fin p) (Fin (1 # 10))) eqn:H1;
    [apply nle_Fin in H1; eexists; split; [reflexivity|]; split;
       [exact H1 | left; reflexivity]|].
  destruct (nle (Fin p) (Fin (5 # 10))) eqn:H2;
    [apply nle_Fin in H2; eexists; split; [reflexivity|]; split;
       [exact H2 | right; left; reflexivity]|].
  destruct (nle (Fin p) (Fin 1)) eqn:H3;
    [apply nle_Fin in H3; eexists; split; [reflexivity|]; split;
       [exact H3 | right; right; left; reflexivity]|].
  destruct (nle (Fin p) (Fin 2)) eqn:H4;
    [apply nle_Fin in H4; eexists; split; [reflexivity|]; split;
       [exact H4 | right; right; right; left; reflexivity]|].
  destruct (nle (Fin p) (Fin 5)) eqn:H5;
    [apply nle_Fin in H5; eexists; split; [reflexivity|]; split;
       [exact H5 | right; right; right; right; left; reflexivity]|].
  eexists. split; [reflexivity|]. split.
  - apply Qle_ceiling.
  - do 5 right. reflexivity.
Qed.

Lemma energy_step_finite (min max : Q) (steps : nat) :
  (2 <= steps)%nat ->
  ndiv (nsub (Fin max) (Fin min)) (nsub (num_of_nat steps) (Fin 1))
  = Fin ((max + - min) / (inject_Z (Z.of_nat steps) + - 1)).
Proof.
  intro H. unfold num_of_nat. cbn [nsub nneg nadd ndiv].
  destruct (Qeq_bool _ 0) eqn:E; [|reflexivity].
  apply Qeq_bool_iff in E. exfalso.
  assert (H2 : (2 <= Z.of_nat steps)%Z) by lia.
  rewrite Zle_Qle in H2. change (inject_Z 2) with 2 in H2. lra.
Qed.

Lemma energy_range_nth (min max : Q) (steps i : nat) :
  (2 <= steps)%nat -> (i < steps)%nat ->
  nth_error (generateEnergyRange (Fin min) (Fin max) steps) i
  = Some (Fin (min + inject_Z (Z.of_nat i)
                     * ((max + - min) / (inject_Z (Z.of_nat steps) + - 1)))).
Proof.
  intros H2 Hi. unfold generateEnergyRange.
  rewrite (energy_step_finite min max steps H2).
  rewrite nth_error_map.
  rewrite (nth_error_nth' (seq 0 steps) 0%nat) by (rewrite length_seq; lia).
  rewrite seq_nth by lia. reflexivity.
Qed.

Section CeilingProps.

Variable exp_Q : Q -> Q.

Lemma energy_axis_finite :
  Forall is_fin (generateEnergyRange (Fin 2) (Fin 7) 1000).
Proof.
  unfold generateEnergyRange.
  assert (Hs : exists q,
            ndiv (nsub (Fin 7) (Fin 2)) (nsub (num_of_nat 1000) (Fin 1))
            = Fin q) by (vm_compute; eexists; reflexivity).
  destruct Hs as [q ->].
  apply Forall_forall. intros x Hx.
  apply in_map_iff in Hx as (i & <- & _).
  eexists. reflexivity.
Qed.

Lemma energy_axis_nonempty : generateEnergyRange (Fin 2) (Fin 7) 1000 <> [].
Proof.
  intro H. apply (f_equal (@length num)) in H.
  unfold generateEnergyRange in H. rewrite length_map, length_seq in H.
  discriminate H.
Qed.

(** One transition of a usable sample adds a finite amount, and nothing
    when its strength is not positive. *)
Lemma add_transition_usable (v : val) (en E acc : Q) :
  usable v ->
  exists w,
    (if vgt v (VNum (Fin 0))
     then nadd (Fin acc) (contribution exp_Q v (Fin en) (Fin E))
     else Fin acc) = Fin w /\
    (strength v <= 0 -> w = acc).
Proof.
  intros [Hp Hn]. destruct v as [[o| | |]| |]; try congruence.
  - unfold vgt, ngt. cbn [toNumber nlt strength].
    destruct (Qlt_bool 0 o) eqn:H.
    + rewrite contribution_finite. cbn [nadd]. eexists.
      split; [reflexivity|]. intro Ho. apply Qlt_bool_iff in H. lra.
    + exists acc. split; [reflexivity | reflexivity].
  - exists acc. split; reflexivity.
  - exists acc. split; reflexivity.
  - exists acc. split; reflexivity.
Qed.

Lemma intensity_at_usable (e : Exc.t) (E : Q) :
  sample_usable e ->
  exists v,
    intensity_at exp_Q e (Fin E) = Fin v /\
    (strength (Exc.s1_oscillator e) <= 0 ->
     strength (Exc.s2_oscillator e) <= 0 -> v = 0).
Proof.
  intros ([e1 HE1] & [e2 HE2] & HU1 & HU2).
  unfold intensity_at. rewrite HE1, HE2.
  destruct (add_transition_usable (Exc.s1_oscillator e) e1 E 0 HU1)
    as (w1 & -> & Hw1).
  destruct (add_transition_usable (Exc.s2_oscillator e) e2 E w1 HU2)
    as (w2 & -> & Hw2).
  exists w2. split; [reflexivity|].
  intros N1 N2. rewrite (Hw2 N2). now apply Hw1.
Qed.

Lemma spectrum_finite (energyRange : list num) (e : Exc.t) :
  sample_usable e -> Forall is_fin energyRange ->
  Forall is_fin (generateSpectrum exp_Q energyRange e).
Proof.
  intros Hu Hr.
  unfold generateSpectrum. apply Forall_forall. intros x Hx.
  apply in_map_iff in Hx as (E & <- & HE).
  rewrite Forall_forall in Hr. destruct (Hr E HE) as [q ->].
  destruct (intensity_at_usable e q Hu) as (v & -> & _).
  eexists. reflexivity.
Qed.

Lemma spectrum_nonempty (e : Exc.t) :
  generateSpectrum exp_Q (generateEnergyRange (Fin 2) (Fin 7) 1000) e <> [].
Proof.
  intro H. apply (f_equal (@length num)) in H.
  unfold generateSpectrum in H. rewrite length_map in H.
  apply energy_axis_nonempty. now apply length_zero_iff_nil.
Qed.

Lemma computed_app (seen : list Exc.t) (e : Exc.t) (v : Q) :
  computed exp_Q (seen ++ [e]) v <->
  computed exp_Q seen v \/ computed exp_Q [e] v.
Proof.
  unfold computed. split.
  - intros (x & Hin & H). apply in_app_or in Hin as [Hin|Hin].
    + left. exists x. tauto.
    + right. exists x. tauto.
  - intros [(x & Hin & H)|(x & Hin & H)]; exists x; split; auto;
      apply in_or_app; [now left | now right].
Qed.

Lemma computed_incl (seen more : list Exc.t) (v : Q) :
  computed exp_Q seen v -> computed exp_Q (seen ++ more) v.
Proof.
  intros (x & Hin & H). exists x. split; [|exact H].
  apply in_or_app. now left.
Qed.

Lemma yaxis_step_inv (seen : list Exc.t) (acc : num * num) (e : Exc.t) :
  sample_usable e ->
  yaxis_inv exp_Q seen acc ->
  yaxis_inv exp_Q (seen ++ [e]) (yaxis_step exp_Q acc e).
Proof.
  intros Hfin (a & b & -> & Ha0 & Hb0 & Hub & Hata & Hatb).
  pose proof Hfin as (_ & _ & HU1 & HU2).
  unfold yaxis_step. cbn [fst snd].
  destruct (or_zero_usable _ HU1) as (o1' & -> & Ho1).
  destruct (or_zero_usable _ HU2) as (o2' & -> & Ho2).
  unfold Math_max at 1. cbn [fold_left].
  change (nmax2 NInf (Fin a)) with (Fin a).
  rewrite !nmax2_Fin.
  set (a1 := if Qlt_bool a o1' then o1' else a).
  set (a' := if Qlt_bool a1 o2' then o2' else a1).
  destruct (Math_max_finite
              (generateSpectrum exp_Q
                 (generateEnergyRange (Fin 2) (Fin 7) 1000) e))
    as (s & -> & Hs_in & Hs_max).
  { apply spectrum_finite; [exact Hfin | apply energy_axis_finite]. }
  { apply spectrum_nonempty. }
  unfold Math_max. cbn [fold_left].
  change (nmax2 NInf (Fin b)) with (Fin b).
  rewrite nmax2_Fin.
  set (b' := if Qlt_bool b s then s else b).
  assert (Ha1 : a <= a1 /\ o1' <= a1 /\ (a1 = a \/ a1 = o1')).
  { unfold a1. destruct (Qlt_bool a o1') eqn:H.
    - apply Qlt_bool_iff in H. repeat split; [lra | lra | now right].
    - assert (o1' <= a)
        by (apply Qnot_lt_le; intro H'; apply Qlt_bool_iff in H'; congruence).
      repeat split; [lra | lra | now left]. }
  assert (Ha' : a1 <= a' /\ o2' <= a' /\ (a' = a1 \/ a' = o2')).
  { unfold a'. destruct (Qlt_bool a1 o2') eqn:H.
    - apply Qlt_bool_iff in H. repeat split; [lra | lra | now right].
    - assert (o2' <= a1)
        by (apply Qnot_lt_le; intro H'; apply Qlt_bool_iff in H'; congruence).
      repeat split; [lra | lra | now left]. }
  assert (Hb' : b <= b' /\ s <= b' /\ (b' = b \/ b' = s)).
  { unfold b'. destruct (Qlt_bool b s) eqn:H.
    - apply Qlt_bool_iff in H. repeat split; [lra | lra | now right].
    - assert (s <= b)
        by (apply Qnot_lt_le; intro H'; apply Qlt_bool_iff in H'; congruence).
      repeat split; [lra | lra | now left]. }
  clearbody a1 a' b'.
  destruct Ha1 as (Ha1 & Ho1a & Ea1). destruct Ha' as (Ha' & Ho2a & Ea').
  destruct Hb' as (Hb' & Hsb & Eb').
  assert (Hobss : computed exp_Q [e] s)
    by (exists e; split; [now left | right; now right]).
  assert (Hseen : forall v, computed exp_Q seen v ->
                            computed exp_Q (seen ++ [e]) v)
    by (intros v Hv; now apply computed_incl).
  exists a', b'. split; [reflexivity|].
  split; [lra|]. split; [lra|]. split; [|split].
  - intros v Hv. apply computed_app in Hv as [Hv|(x & [<-|[]] & Hx)].
    + destruct (Hub v Hv); [left | right]; lra.
    + destruct Hx as [Hx|[Hx|Hx]].
      * destruct Ho1 as [(o & Eo & Ho)|(_ & Hno)];
          [|exfalso; exact (Hno v Hx)].
        rewrite Eo in Hx. injection Hx as <-. left. lra.
      * destruct Ho2 as [(o & Eo & Ho)|(_ & Hno)];
          [|exfalso; exact (Hno v Hx)].
        rewrite Eo in Hx. injection Hx as <-. left. lra.
      * right. specialize (Hs_max v Hx). lra.
  - assert (Hold : a == 0 \/ (exists v, computed exp_Q (seen ++ [e]) v /\ v == a)).
    { destruct Hata as [H|(v & Hv & E)]; [now left | right].
      exists v. split; [now apply Hseen | exact E]. }
    assert (H1 : o1' == 0 \/
                 (exists v, computed exp_Q (seen ++ [e]) v /\ v == o1')).
    { destruct Ho1 as [(o & Eo & Ho)|(-> & _)]; [right | left; reflexivity].
      exists o. split; [|now symmetry].
      apply computed_app. right. exists e. split; [now left | now left]. }
    assert (H2 : o2' == 0 \/
                 (exists v, computed exp_Q (seen ++ [e]) v /\ v == o2')).
    { destruct Ho2 as [(o & Eo & Ho)|(-> & _)]; [right | left; reflexivity].
      exists o. split; [|now symmetry].
      apply computed_app. right. exists e.
      split; [now left | right; now left]. }
    destruct Ea' as [->| ->]; [|exact H2].
    destruct Ea1 as [->| ->]; [exact Hold | exact H1].
  - destruct Eb' as [->| ->].
    + destruct Hatb as [H|(v & Hv & E)]; [now left | right].
      exists v. split; [now apply Hseen | exact E].
    + right. exists s. split; [apply computed_app; now right | reflexivity].
Qed.

Lemma yaxis_fold_inv (l seen : list Exc.t) (acc : num * num) :
  (forall e, In e l -> sample_usable e) ->
  yaxis_inv exp_Q seen acc ->
  yaxis_inv exp_Q (seen ++ l) (fold_left (yaxis_step exp_Q) l acc).
Proof.
  revert seen acc. induction l as [|e l IH]; intros seen acc Hfin Hinv.
  - cbn [fold_left]. now rewrite app_nil_r.
  - cbn [fold_left].
    replace (seen ++ e :: l) with ((seen ++ [e]) ++ l)
      by (now rewrite <- app_assoc).
    apply IH.
    + intros x Hx. apply Hfin. now right.
    + apply yaxis_step_inv; [apply Hfin; now left | exact Hinv].
Qed.

(** The value the charts never exceed: [dataMax] is the largest computed
    value of a non-empty usable series. *)
Lemma dataMax_computed_max (data : list Exc.t) :
  data <> [] -> (forall e, In e data -> sample_usable e) ->
  exists m, dataMax exp_Q data = Fin m /\ computed_max exp_Q data m.
Proof.
  intros Hne Hfin.
  destruct (yaxis_fold_inv data [] (Fin 0, Fin 0) Hfin)
    as (a & b & Hacc & Ha0 & Hb0 & Hub & Hata & Hatb).
  { exists 0, 0. split; [reflexivity|].
    split; [apply Qle_refl|]. split; [apply Qle_refl|].
    split; [|split; left; reflexivity].
    intros v (x & [] & _). }
  cbn [app] in *.
  unfold dataMax. rewrite Hacc. cbn [fst snd].
  unfold Math_max. cbn [fold_left].
  change (nmax2 NInf (Fin a)) with (Fin a). rewrite nmax2_Fin.
  set (m := if Qlt_bool a b then b else a).
  assert (Hm : a <= m /\ b <= m /\ (m = a \/ m = b)).
  { unfold m. destruct (Qlt_bool a b) eqn:H.
    - apply Qlt_bool_iff in H. repeat split; [lra | lra | now right].
    - assert (b <= a)
        by (apply Qnot_lt_le; intro H'; apply Qlt_bool_iff in H'; congruence).
      repeat split; [lra | lra | now left]. }
  clearbody m. destruct Hm as (Ham & Hbm & Em).
  exists m. split; [reflexivity|].
  assert (Hup : forall v, computed exp_Q data v -> v <= m).
  { intros v Hv. destruct (Hub v Hv); lra. }
  split; [|exact Hup].
  assert (Hzero : m == 0 -> exists v, computed exp_Q data v /\ v == m).
  { intro Hm0. destruct data as [|e0 rest]; [congruence|].
    pose proof (Hfin e0 (or_introl eq_refl)) as Hu0.
    assert (N1 : strength (Exc.s1_oscillator e0) <= 0).
    { destruct (Exc.s1_oscillator e0) as [[o| | |]| |] eqn:Eo;
        cbn [strength]; try apply Qle_refl.
      rewrite <- Hm0. apply Hup. exists e0. split; [now left | now left]. }
    assert (N2 : strength (Exc.s2_oscillator e0) <= 0).
    { destruct (Exc.s2_oscillator e0) as [[o| | |]| |] eqn:Eo;
        cbn [strength]; try apply Qle_refl.
      rewrite <- Hm0. apply Hup. exists e0.
      split; [now left | right; now left]. }
    destruct (generateEnergyRange (Fin 2) (Fin 7) 1000) as [|E0 axis] eqn:Hax;
      [exfalso; now apply energy_axis_nonempty|].
    pose proof energy_axis_finite as Hall. rewrite Hax in Hall.
    inversion Hall as [|? ? [q0 ->] _]; subst.
    destruct (intensity_at_usable e0 q0 Hu0) as (v & Hv & Hz).
    rewrite (Hz N1 N2) in Hv.
    exists 0. split; [|now symmetry].
    exists e0. split; [now left|]. right. right.
    rewrite Hax. unfold generateSpectrum. cbn [map]. left. exact Hv. }
  destruct Em as [->| ->].
  - destruct Hata as [H|H]; [now apply Hzero | exact H].
  - destruct Hatb as [H|H]; [now apply Hzero | exact H].
Qed.

(** Without a series, or with an empty one, the maximum falls back to 2. *)
Lemma ceiling_fallback (this : MolecularCharts) :
  excitationData this = None \/ excitationData this = Some [] ->
  globalYAxisMax (calculateGlobalYAxisMax exp_Q this) = Some (Fin 2).
Proof.
  unfold calculateGlobalYAxisMax. now intros [-> | ->].
Qed.

(** One transition of a usable sample adds its term of the closed
    formula. *)
Lemma add_transition_term (v : val) (en E acc : Q) :
  usable v ->
  exists w,
    (if vgt v (VNum (Fin 0))
     then nadd (Fin acc) (contribution exp_Q v (Fin en) (Fin E))
     else Fin acc) = Fin w /\
    w == acc + transition_term exp_Q (strength v) en E.
Proof.
  intros [Hp Hn]. destruct v as [[o| | |]| |]; try congruence.
  - unfold vgt, ngt, transition_term. cbn [toNumber nlt strength].
    destruct (Qlt_bool 0 o) eqn:H.
    + rewrite contribution_finite. cbn [nadd]. eexists.
      split; reflexivity.
    + exists acc. split; [reflexivity | ring].
  - exists acc. split; [reflexivity|]. unfold transition_term. cbn. ring.
  - exists acc. split; [reflexivity|]. unfold transition_term. cbn. ring.
  - exists acc. split; [reflexivity|]. unfold transition_term. cbn. ring.
Qed.

(** On a usable sample the code computes the synthesised spectrum. *)
Lemma intensity_at_synthesised (e : Exc.t) (E : Q) :
  sample_usable e ->
  exists v,
    intensity_at exp_Q e (Fin E) = Fin v /\ synthesised exp_Q e E v.
Proof.
  intros ([e1 HE1] & [e2 HE2] & HU1 & HU2).
  unfold intensity_at. rewrite HE1, HE2.
  destruct (add_transition_term (Exc.s1_oscillator e) e1 E 0 HU1)
    as (w1 & -> & Hw1).
  destruct (add_transition_term (Exc.s2_oscillator e) e2 E w1 HU2)
    as (w2 & -> & Hw2).
  exists w2. split; [reflexivity|].
  exists e1, e2. split; [exact HE1|]. split; [exact HE2|].
  rewrite Hw2, Hw1. ring.
Qed.

Lemma synthesised_unique (e : Exc.t) (E v w : Q) :
  synthesised exp_Q e E v -> synthesised exp_Q e E w -> v == w.
Proof.
  intros (a1 & a2 & A1 & A2 & Hv) (b1 & b2 & B1 & B2 & Hw).
  rewrite A1 in B1. rewrite A2 in B2.
  injection B1 as <-. injection B2 as <-.
  now rewrite Hv, Hw.
Qed.

(** The axis the code builds is the axis of the charts. *)
Lemma axis_point (i : nat) :
  (i < 1000)%nat ->
  nth_error (generateEnergyRange (Fin 2) (Fin 7) 1000) i
  = Some (Fin (axis_energy i)).
Proof.
  intro Hi. rewrite (energy_range_nth 2 7 1000 i) by lia. reflexivity.
Qed.

Lemma axis_In (E : num) :
  In E (generateEnergyRange (Fin 2) (Fin 7) 1000) ->
  exists i, (i < 1000)%nat /\ E = Fin (axis_energy i).
Proof.
  intro H. apply In_nth_error in H as [i Hi].
  assert (Hlt : (i < 1000)%nat).
  { assert (Hl : (i < length (generateEnergyRange (Fin 2) (Fin 7) 1000))%nat)
      by (apply nth_error_Some; congruence).
    unfold generateEnergyRange in Hl.
    now rewrite length_map, length_seq in Hl. }
  exists i. split; [exact Hlt|].
  rewrite (axis_point i Hlt) in Hi. now injection Hi.
Qed.

(** On usable samples, what the loop computes is what is observed. *)
Lemma computed_observed (data : list Exc.t) (v : Q) :
  (forall e, In e data -> sample_usable e) ->
  computed exp_Q data v -> observed exp_Q data v.
Proof.
  intros Hu (e & He & H). exists e. split; [exact He|].
  destruct H as [H|[H|H]]; [now left | right; now left|].
  right. right. unfold generateSpectrum in H.
  apply in_map_iff in H as (E & HE & Hin).
  apply axis_In in Hin as (i & Hi & ->).
  exists i. split; [exact Hi|].
  destruct (intensity_at_synthesised e (axis_energy i) (Hu e He))
    as (w & Hw & Hs).
  rewrite Hw in HE. now injection HE as <-.
Qed.

Lemma observed_computed (data : list Exc.t) (v : Q) :
  (forall e, In e data -> sample_usable e) ->
  observed exp_Q data v -> exists w, computed exp_Q data w /\ w == v.
Proof.
  intros Hu (e & He & H).
  destruct H as [H|[H|(i & Hi & Hs)]].
  - exists v. split; [|reflexivity]. exists e. split; [exact He | now left].
  - exists v. split; [|reflexivity].
    exists e. split; [exact He | right; now left].
  - destruct (intensity_at_synthesised e (axis_energy i) (Hu e He))
      as (w & Hw & Hs').
    exists w. split; [|exact (synthesised_unique e _ w v Hs' Hs)].
    exists e. split; [exact He|]. right. right.
    unfold generateSpectrum. apply in_map_iff.
    exists (Fin (axis_energy i)). split; [exact Hw|].
    eapply nth_error_In. now apply axis_point.
Qed.

(** The largest value the loop computes is the observed maximum. *)
Lemma computed_max_observed (data : list Exc.t) (m : Q) :
  (forall e, In e data -> sample_usable e) ->
  computed_max exp_Q data m -> observed_max exp_Q data m.
Proof.
  intros Hu [(v & Hv & E) Hup]. split.
  - exists v. split; [now apply computed_observed | exact E].
  - intros w Hw. destruct (observed_computed data w Hu Hw) as (w' & Hw' & E').
    rewrite <- E'. now apply Hup.
Qed.

(** C5, amended -- for a series of at least one sample whose energies are
    finite and whose oscillator fields are not infinite, the maximum
    stored by [calculateGlobalYAxisMax] is a finite number [c]; with [M]
    the observed maximum, the largest value among the oscillator strengths
    of the samples and the spectra synthesised from them on the 1000
    points of the axis, [c] is at least [1.2 * M] and is one of 0.1, 0.5,
    1, 2, 5 or [ceil(1.2 * M)]. *)
Theorem C5_display_ceiling (this : MolecularCharts) (data : list Exc.t) :
  excitationData this = Some data ->
  data <> [] ->
  (forall e, In e data -> sample_usable e) ->
  exists c M,
    globalYAxisMax (calculateGlobalYAxisMax exp_Q this) = Some (Fin c) /\
    observed_max exp_Q data M /\
    (12 # 10) * M <= c /\
    breakpoint ((12 # 10) * M) c.
Proof.
  intros Hd Hne Hfin.
  destruct (dataMax_computed_max data Hne Hfin) as (m & Hm & Hobs).
  destruct (nice_max_spec (m * (12 # 10))) as (c & Hc & Hle & Hbp).
  exists c, m.
  assert (Hp : m * (12 # 10) == (12 # 10) * m) by ring.
  split; [|split; [now apply computed_max_observed|split]].
  - unfold calculateGlobalYAxisMax. rewrite Hd.
    destruct data as [|e0 rest]; [congruence|].
    cbn [globalYAxisMax]. rewrite Hm. cbn [nmul]. now rewrite Hc.
  - now rewrite <- Hp.
  - unfold breakpoint in *.
    rewrite <- (Qceiling_comp _ _ Hp). exact Hbp.
Qed.

End CeilingProps.

Lemma C5_display_ceiling_witness :
  globalYAxisMax
    (calculateGlobalYAxisMax exp_rational (mkCharts (Some [twin_sample]) None))
  = Some (Fin 1) /\
  exists c M,
    globalYAxisMax
      (calculateGlobalYAxisMax exp_rational
         (mkCharts (Some [twin_sample]) None))
    = Some (Fin c) /\
    observed_max exp_rational [twin_sample] M /\
    (12 # 10) * M <= c /\
    breakpoint ((12 # 10) * M) c.
Proof.
  split; [vm_compute; reflexivity|].
  apply (C5_display_ceiling exp_rational
           (mkCharts (Some [twin_sample]) None) [twin_sample]).
  - reflexivity.
  - discriminate.
  - intros e [<-|[]]. unfold sample_usable, usable, is_fin. simpl.
    repeat split; try (eexists; reflexivity); discriminate.
Defined.

(** C5, as stated, fails: for a series of one sample whose S1 energy is
    not a number and whose S1 strength is 0.5, every point of the
    synthesised list is NaN and so is the stored maximum, which is then
    neither at least 1.2 times the observed strength 0.5 nor one of the
    breakpoints. *)
Lemma C5_nan_energy_ceiling :
  globalYAxisMax
    (calculateGlobalYAxisMax exp_rational
       (mkCharts (Some [nan_energy_sample]) None))
  = Some NaN /\
  observed exp_rational [nan_energy_sample] (5 # 10) /\
  nle (Fin ((12 # 10) * (5 # 10))) NaN = false /\
  ~ (exists c M,
       globalYAxisMax
         (calculateGlobalYAxisMax exp_rational
            (mkCharts (Some [nan_energy_sample]) None))
       = Some (Fin c) /\
       observed_max exp_rational [nan_energy_sample] M /\
       (12 # 10) * M <= c /\
       breakpoint ((12 # 10) * M) c).
Proof.
  assert (H : globalYAxisMax
                (calculateGlobalYAxisMax exp_rational
                   (mkCharts (Some [nan_energy_sample]) None))
              = Some NaN) by (vm_compute; reflexivity).
  split; [exact H|]. split; [|split; [reflexivity|]].
  - exists nan_energy_sample. split; [now left | now left].
  - intros (c & M & Hc & _). rewrite H in Hc. discriminate Hc.
Qed.

(** ** Bond inference *)

Lemma Qsquare_nonneg (d : Q) : 0 <= d * d.
Proof.
  destruct (Qlt_le_dec d 0) as [H|H].
  - setoid_replace (d * d) with ((- d) * (- d)) by ring.
    apply Qmult_le_0_compat; lra.
  - now apply Qmult_le_0_compat.
Qed.

Section BondProps.

Variable sqrt_Q : Q -> Q.

Lemma is_H_symbol (atoms : list string) (i : nat) :
  is_H atoms i = String.eqb (symbol_at atoms i) "H".
Proof.
  unfold is_H, symbol_at. revert i.
  induction atoms as [|a atoms IH]; intros [|i]; simpl; auto.
Qed.

Lemma maxDistance_threshold (atoms : list string) (i j : nat) :
  maxDistance atoms i j
  = applicable_threshold (symbol_at atoms i) (symbol_at atoms j).
Proof.
  unfold maxDistance, applicable_threshold. now rewrite !is_H_symbol.
Qed.

Lemma indexed_from_In {A} (l : list A) (k j : nat) (c : A) :
  In (j, c) (indexed_from k l) <->
  exists n, j = (k + n)%nat /\ nth_error l n = Some c.
Proof.
  revert k. induction l as [|a l IH]; intro k; simpl.
  - split; [tauto | intros ([|n] & _ & H); discriminate].
  - rewrite IH. split.
    + intros [E|(n & -> & Hn)].
      * injection E as <- <-. exists 0%nat. split; [lia | reflexivity].
      * exists (S n). split; [lia | exact Hn].
    + intros ([|n] & -> & Hn); simpl in Hn.
      * injection Hn as ->. left. f_equal. lia.
      * right. exists n. split; [lia | exact Hn].
Qed.

(** The inner loop adds the bonds of atom [i] with the atoms listed. *)
Lemma inner_loop_In (atoms : list string) (i : nat) (ci : vec3)
  (js : list (nat * vec3)) (acc : list BondMesh) (b : BondMesh) :
  In b (fold_left (bond_step sqrt_Q atoms i ci) js acc) <->
  In b acc \/
  exists j cj, In (j, cj) js /\
    nlt (calculateDistance sqrt_Q ci cj) (maxDistance atoms i j) = true /\
    b = mkBond (ci, cj) (i, j).
Proof.
  revert acc. induction js as [|[j cj] js IH]; intro acc; cbn [fold_left].
  - split; [tauto | intros [H|(j & cj & [] & _)]; exact H].
  - rewrite IH. unfold bond_step.
    destruct (nlt (calculateDistance sqrt_Q ci cj) (maxDistance atoms i j))
      eqn:Hd.
    + rewrite in_app_iff. split.
      * intros [[H|[<-|[]]]|(j' & cj' & Hin & Hlt & ->)].
        -- now left.
        -- right. exists j, cj. split; [now left | auto].
        -- right. exists j', cj'. split; [now right | auto].
      * intros [H|(j' & cj' & [E|Hin] & Hlt & ->)].
        -- left. now left.
        -- injection E as <- <-. left. right. now left.
        -- right. exists j', cj'. auto.
    + split.
      * intros [H|(j' & cj' & Hin & Hlt & ->)].
        -- now left.
        -- right. exists j', cj'. split; [now right | auto].
      * intros [H|(j' & cj' & [E|Hin] & Hlt & ->)].
        -- now left.
        -- injection E as <- <-. congruence.
        -- right. exists j', cj'. auto.
Qed.

(** The two loops add exactly the pairs [k < l] that are closer than their
    threshold. *)
Lemma bond_loop_In (atoms : list string) (rest : list vec3) (i : nat)
  (acc : list BondMesh) (b : BondMesh) :
  In b (bond_loop sqrt_Q atoms i rest acc) <->
  In b acc \/
  exists k l ck cl,
    nth_error rest k = Some ck /\ nth_error rest l = Some cl /\
    (k < l)%nat /\
    nlt (calculateDistance sqrt_Q ck cl)
        (maxDistance atoms (i + k) (i + l)) = true /\
    b = mkBond (ck, cl) ((i + k)%nat, (i + l)%nat).
Proof.
  revert i acc. induction rest as [|ci tl IH]; intros i acc; cbn [bond_loop].
  - split; [tauto | intros [H|([|k] & l & ck & cl & Hk & _)]; [exact H| |]];
      discriminate.
  - rewrite IH, inner_loop_In. split.
    + intros [[H|(j & cj & Hin & Hlt & ->)]
             |(k & l & ck & cl & Hk & Hl & Hkl & Hlt & ->)].
      * now left.
      * apply indexed_from_In in Hin as (n & -> & Hn).
        right. exists 0%nat, (S n), ci, cj. cbn [nth_error].
        rewrite Nat.add_0_r.
        replace (i + S n)%nat with (S i + n)%nat by lia.
        repeat split; auto. lia.
      * right. exists (S k), (S l), ck, cl. cbn [nth_error].
        replace (i + S k)%nat with (S i + k)%nat by lia.
        replace (i + S l)%nat with (S i + l)%nat by lia.
        repeat split; auto. lia.
    + intros [H|(k & l & ck & cl & Hk & Hl & Hkl & Hlt & ->)].
      * left. now left.
      * destruct l as [|l]; [lia|]. cbn [nth_error] in Hl.
        destruct k as [|k]; cbn [nth_error] in Hk.
        -- injection Hk as ->. left. right. exists (i + S l)%nat, cl.
           rewrite Nat.add_0_r in *.
           split; [|auto].
           apply indexed_from_In. exists l. split; [lia | exact Hl].
        -- right. exists k, l, ck, cl.
           replace (S i + k)%nat with (i + S k)%nat by lia.
           replace (S i + l)%nat with (i + S l)%nat by lia.
           repeat split; auto. lia.
Qed.

(** Which pairs [createBonds] reports, whatever the two lengths. *)
Lemma createBonds_pairs (atoms : list string) (coords : list vec3)
  (i j : nat) (ci cj : vec3) :
  nth_error coords i = Some ci -> nth_error coords j = Some cj ->
  (i < j)%nat ->
  (In (i, j) (map atomIndices (createBonds sqrt_Q atoms coords)) <->
   nlt (calculateDistance sqrt_Q ci cj)
       (applicable_threshold (symbol_at atoms i) (symbol_at atoms j)) = true).
Proof.
  intros Hi Hj Hij. rewrite <- maxDistance_threshold.
  unfold createBonds. rewrite in_map_iff. split.
  - intros (b & Hb & Hin).
    apply bond_loop_In in Hin as [[]|(k & l & ck & cl & Hk & Hl & _ & Hlt & ->)].
    cbn in Hb. injection Hb as -> ->. cbn [Nat.add] in Hlt. congruence.
  - intro Hlt. exists (mkBond (ci, cj) (i, j)). split; [reflexivity|].
    apply bond_loop_In. right. exists i, j, ci, cj. cbn [Nat.add]. auto.
Qed.

Lemma createBonds_indices (atoms : list string) (coords : list vec3)
  (b : BondMesh) :
  In b (createBonds sqrt_Q atoms coords) ->
  (fst (atomIndices b) < snd (atomIndices b) < length coords)%nat.
Proof.
  unfold createBonds. intro Hin.
  apply bond_loop_In in Hin as [[]|(k & l & ck & cl & Hk & Hl & Hkl & _ & ->)].
  cbn. split; [exact Hkl|]. apply nth_error_Some. congruence.
Qed.

(** On points with finite coordinates [calculateDistance] is the
    Euclidean distance. *)
Lemma calculateDistance_euclidean (p q : Q * Q * Q) :
  calculateDistance sqrt_Q (fin3 p) (fin3 q)
  = Fin (euclidean_distance sqrt_Q p q).
Proof.
  destruct p as [[x1 y1] z1], q as [[x2 y2] z2].
  unfold calculateDistance, euclidean_distance, fin3.
  cbn [nsub nneg nadd nmul Math_sqrt].
  set (s := (x1 + - x2) * (x1 + - x2) + (y1 + - y2) * (y1 + - y2)
            + (z1 + - z2) * (z1 + - z2)).
  assert (Hs : 0 <= s).
  { unfold s. pose proof (Qsquare_nonneg (x1 + - x2)).
    pose proof (Qsquare_nonneg (y1 + - y2)).
    pose proof (Qsquare_nonneg (z1 + - z2)). lra. }
  destruct (Qlt_bool s 0) eqn:E.
  - apply Qlt_bool_iff in E. exfalso. lra.
  - reflexivity.
Qed.

(** The square of a difference is a finite number when both sides are,
    and [Infinity] or NaN otherwise. *)
Lemma squared_difference_cases (a b : num) :
  (exists x y, a = Fin x /\ b = Fin y /\
               nmul (nsub a b) (nsub a b) = Fin ((x + - y) * (x + - y))) \/
  nmul (nsub a b) (nsub a b) = PInf \/
  nmul (nsub a b) (nsub a b) = NaN.
Proof.
  destruct a as [x| | |], b as [y| | |]; cbn;
    try (right; left; reflexivity); try (right; right; reflexivity).
  left. exists x, y. repeat split.
Qed.

(** With a coordinate that is not finite the computed distance is
    [Infinity] or NaN, which is below no threshold. *)
Lemma calculateDistance_not_finite (ci cj : vec3) (t : Q) :
  ~ (finite_point ci /\ finite_point cj) ->
  nlt (calculateDistance sqrt_Q ci cj) (Fin t) = false.
Proof.
  intro Hnf. destruct ci as [[x1 y1] z1], cj as [[x2 y2] z2].
  unfold calculateDistance.
  destruct (squared_difference_cases x1 x2) as [(a1 & a2 & E1 & E2 & S1)|[S1|S1]];
    destruct (squared_difference_cases y1 y2)
      as [(b1 & b2 & E3 & E4 & S2)|[S2|S2]];
    destruct (squared_difference_cases z1 z2)
      as [(c1 & c2 & E5 & E6 & S3)|[S3|S3]];
    rewrite S1, S2, S3; try reflexivity.
  exfalso. apply Hnf. subst.
  split; [exists (a1, b1, c1) | exists (a2, b2, c2)]; reflexivity.
Qed.

Lemma applicable_threshold_finite (a b : string) :
  exists t, applicable_threshold a b = Fin t.
Proof.
  unfold applicable_threshold.
  destruct (String.eqb a "H" || String.eqb b "H")%bool; eexists; reflexivity.
Qed.

(** C9 -- for an atom list and a coordinate list of the same length,
    [createBonds] records a bond with [atomIndices = [i, j]] between two
    atoms [i < j] with finite coordinates exactly when their Euclidean
    distance [sqrt(dx^2 + dy^2 + dz^2)] is below the threshold of the
    pair: 1.2 when either symbol is ['H'], 1.8 otherwise.  A pair with a
    coordinate that is not a finite number is never bonded, every recorded
    bond joins two distinct atoms of the list, and a list of no atom or of
    one atom gives no bond. *)
Theorem C9_bond_inference (atoms : list string) (coords : list vec3) :
  length atoms = length coords ->
  (forall i j p q,
      nth_error coords i = Some (fin3 p) ->
      nth_error coords j = Some (fin3 q) ->
      (i < j)%nat ->
      (In (i, j) (map atomIndices (createBonds sqrt_Q atoms coords)) <->
       nlt (Fin (euclidean_distance sqrt_Q p q))
           (applicable_threshold (symbol_at atoms i) (symbol_at atoms j))
       = true)) /\
  (forall i j ci cj,
      nth_error coords i = Some ci -> nth_error coords j = Some cj ->
      ~ (finite_point ci /\ finite_point cj) ->
      ~ In (i, j) (map atomIndices (createBonds sqrt_Q atoms coords))) /\
  (forall b, In b (createBonds sqrt_Q atoms coords) ->
     (fst (atomIndices b) < snd (atomIndices b) < length atoms)%nat) /\
  ((length atoms <= 1)%nat -> createBonds sqrt_Q atoms coords = []).
Proof.
  intro Hlen. split; [|split; [|split]].
  - intros i j p q Hi Hj Hij.
    rewrite (createBonds_pairs atoms coords i j _ _ Hi Hj Hij).
    now rewrite calculateDistance_euclidean.
  - intros i j ci cj Hi Hj Hnf Hin.
    assert (Hij : (i < j)%nat).
    { apply in_map_iff in Hin as (b & Eb & Hb).
      pose proof (createBonds_indices atoms coords b Hb) as H.
      rewrite Eb in H. cbn in H. lia. }
    apply (createBonds_pairs atoms coords i j ci cj Hi Hj Hij) in Hin.
    destruct (applicable_threshold_finite (symbol_at atoms i)
                                          (symbol_at atoms j)) as [t Ht].
    rewrite Ht, (calculateDistance_not_finite ci cj t Hnf) in Hin.
    discriminate Hin.
  - intros b Hb. rewrite Hlen. exact (createBonds_indices atoms coords b Hb).
  - rewrite Hlen. intro H1.
    destruct coords as [|c [|c' coords]]; [reflexivity | reflexivity|].
    simpl in H1. lia.
Qed.

(** C10, amended -- when the number of atom symbols differs from the number
    of coordinates, [createBonds] raises nothing: it returns the bonds of
    the coordinate list, a pair [i < j] being bonded exactly when its
    distance is below its threshold, where an atom without a symbol is not
    a hydrogen. *)
Theorem C10_mismatch_returns_bonds (atoms : list string) (coords : list vec3) :
  length atoms <> length coords ->
  exists bonds,
    createBonds_completion sqrt_Q atoms coords = Returns bonds /\
    (forall i j ci cj,
        nth_error coords i = Some ci -> nth_error coords j = Some cj ->
        (i < j)%nat ->
        (In (i, j) (map atomIndices bonds) <->
         nlt (calculateDistance sqrt_Q ci cj)
             (applicable_threshold (symbol_at atoms i) (symbol_at atoms j))
         = true)) /\
    (forall i, (length atoms <= i)%nat -> symbol_at atoms i = EmptyString).
Proof.
  intros _. exists (createBonds sqrt_Q atoms coords).
  split; [reflexivity|]. split.
  - intros i j ci cj. apply createBonds_pairs.
  - intros i Hi. unfold symbol_at. now apply nth_overflow.
Qed.

End BondProps.

Lemma C9_bond_inference_witness :
  In (0%nat, 1%nat)
     (map atomIndices
        (createBonds sqrt_approx ["C"; "H"; "O"]%string
           [fin3 (0, 0, 0); fin3 (1, 0, 0); fin3 (0, 15 # 10, 0)])) <->
  nlt (Fin (euclidean_distance sqrt_approx (0, 0, 0) (1, 0, 0)))
      (applicable_threshold
         (symbol_at ["C"; "H"; "O"]%string 0)
         (symbol_at ["C"; "H"; "O"]%string 1)) = true.
Proof.
  refine (proj1 (C9_bond_inference sqrt_approx ["C"; "H"; "O"]%string
                   [fin3 (0, 0, 0); fin3 (1, 0, 0); fin3 (0, 15 # 10, 0)] _)
                0%nat 1%nat (0, 0, 0) (1, 0, 0) _ _ _).
  - reflexivity.
  - reflexivity.
  - reflexivity.
  - lia.
Defined.

(** C10, as stated, fails: one symbol and two coordinates give a bond set
    and no error. *)
Lemma C10_no_shape_error :
  ~ (forall (sqrt_Q : Q -> Q) (atoms : list string) (coords : list vec3),
        length atoms <> length coords ->
        createBonds_completion sqrt_Q atoms coords = Throws DataShapeError).
Proof.
  intro H.
  specialize (H sqrt_approx ["C"%string]
                [(Fin 0, Fin 0, Fin 0); (Fin 1, Fin 0, Fin 0)]).
  assert (Hlen : length ["C"%string]
                 <> length [(Fin 0, Fin 0, Fin 0); (Fin 1, Fin 0, Fin 0)])
    by (simpl; lia).
  specialize (H Hlen). discriminate H.
Qed.

Lemma C10_mismatch_returns_bonds_witness :
  exists bonds,
    createBonds_completion sqrt_approx ["C"%string]
      [(Fin 0, Fin 0, Fin 0); (Fin 1, Fin 0, Fin 0)] = Returns bonds /\
    (forall i j ci cj,
        nth_error [(Fin 0, Fin 0, Fin 0); (Fin 1, Fin 0, Fin 0)] i = Some ci ->
        nth_error [(Fin 0, Fin 0, Fin 0); (Fin 1, Fin 0, Fin 0)] j = Some cj ->
        (i < j)%nat ->
        (In (i, j) (map atomIndices bonds) <->
         nlt (calculateDistance sqrt_approx ci cj)
             (applicable_threshold (symbol_at ["C"%string] i)
                                   (symbol_at ["C"%string] j))
         = true)) /\
    (forall i, (length ["C"%string] <= i)%nat ->
               symbol_at ["C"%string] i = EmptyString).
Proof.
  apply (C10_mismatch_returns_bonds sqrt_approx ["C"%string]
           [(Fin 0, Fin 0, Fin 0); (Fin 1, Fin 0, Fin 0)]).
  simpl. lia.
Defined.

(** * Further properties of the code *)

(** ** The nearest-sample loop *)

Lemma time_gap_finite (e : Exc.t) (t : Q) :
  is_fin (Exc.time_fs e) -> is_fin (time_gap e (Fin t)).
Proof. intros [te H]. unfold time_gap. rewrite H. eexists; reflexivity. Qed.

Lemma closest_scan_snoc (t : num) (l : list Exc.t) (x : Exc.t) :
  closest_scan t (l ++ [x]) = closest_step t (closest_scan t l) x.
Proof. unfold closest_scan. now rewrite fold_left_app. Qed.

Lemma nle_nlt_trans_fin (a b c : num) :
  is_fin a -> is_fin b -> is_fin c ->
  nlt a b = true -> nle b c = true -> nlt a c = true.
Proof.
  intros [x ->] [y ->] [z ->]. rewrite !nlt_Fin, nle_Fin. apply Qlt_le_trans.
Qed.

Lemma closest_scan_nearest (t : Q) (data : list Exc.t) :
  (forall e, In e data -> is_fin (Exc.time_fs e)) ->
  nearest_so_far (Fin t) data (closest_scan (Fin t) data).
Proof.
  induction data as [|x l IH] using rev_ind; intro Hfin.
  - left. split; reflexivity.
  - rewrite closest_scan_snoc.
    assert (Hl : forall e, In e l -> is_fin (Exc.time_fs e))
      by (intros e He; apply Hfin, in_or_app; now left).
    assert (Hx : is_fin (time_gap x (Fin t)))
      by (apply time_gap_finite, Hfin, in_or_app; right; now left).
    specialize (IH Hl). unfold closest_step. fold (time_gap x (Fin t)).
    destruct IH as [[-> ->] | (i & e & Hi & -> & Hmin & Hfirst)].
    + cbn [snd]. destruct Hx as [gx Hgx]. rewrite Hgx. cbn [nlt].
      right. exists 0%nat, x. rewrite Hgx. repeat split.
      * intros e' [<-|[]]. rewrite Hgx. apply nle_Fin, Qle_refl.
      * intros j e' Hj. lia.
    + cbn [snd].
      assert (He : is_fin (time_gap e (Fin t))).
      { apply time_gap_finite, Hl. eapply nth_error_In; eauto. }
      destruct (nlt (time_gap x (Fin t)) (time_gap e (Fin t))) eqn:Hlt; right.
      * exists (length l), x. repeat split.
        -- rewrite nth_error_app2, Nat.sub_diag by lia. reflexivity.
        -- intros e' He'. apply in_app_or in He' as [He'|[<-|[]]].
           ++ apply nlt_nle. eapply nle_nlt_trans_fin; eauto.
              apply time_gap_finite. now apply Hl.
           ++ destruct Hx as [gx ->]. apply nle_Fin, Qle_refl.
        -- intros j e' Hj Hn. rewrite nth_error_app1 in Hn by lia.
           eapply nle_nlt_trans_fin; eauto.
           ++ apply time_gap_finite, Hl. eapply nth_error_In; eauto.
           ++ apply Hmin. eapply nth_error_In; eauto.
      * exists i, e. repeat split.
        -- rewrite nth_error_app1; [exact Hi|].
           apply nth_error_Some. congruence.
        -- intros e' He'. apply in_app_or in He' as [He'|[<-|[]]].
           ++ now apply Hmin.
           ++ destruct Hx as [gx Hgx]. destruct He as [ge Hge].
              rewrite Hgx, Hge in *. apply nlt_false_Fin in Hlt.
              now apply nle_Fin.
        -- intros j e' Hj Hn.
           assert (Hlen : (i < length l)%nat)
             by (apply nth_error_Some; congruence).
           rewrite nth_error_app1 in Hn by lia. eapply Hfirst; eauto.
Qed.

(** X1 -- on a non-empty list of samples with finite times, the loop that
    scans for the closest sample ends on a sample of the list whose distance
    in time to the query is no larger than that of any other sample, and
    strictly smaller than that of every sample before it: the earliest of
    the nearest. *)
Theorem X1_scan_finds_nearest (t : Q) (data : list Exc.t) :
  data <> [] ->
  (forall e, In e data -> is_fin (Exc.time_fs e)) ->
  exists i e,
    closest_scan (Fin t) data = (Some e, time_gap e (Fin t)) /\
    nth_error data i = Some e /\
    (forall e', In e' data ->
       nle (time_gap e (Fin t)) (time_gap e' (Fin t)) = true) /\
    (forall j e', (j < i)%nat -> nth_error data j = Some e' ->
       nlt (time_gap e (Fin t)) (time_gap e' (Fin t)) = true).
Proof.
  intros Hne Hfin.
  destruct (closest_scan_nearest t data Hfin)
    as [[E _] | (i & e & Hi & Hs & Hmin & Hfirst)]; [congruence|].
  exists i, e. auto.
Qed.

Lemma X1_scan_finds_nearest_witness :
  exists i e,
    closest_scan (Fin 160) ex_series = (Some e, time_gap e (Fin 160)) /\
    nth_error ex_series i = Some e /\
    (forall e', In e' ex_series ->
       nle (time_gap e (Fin 160)) (time_gap e' (Fin 160)) = true) /\
    (forall j e', (j < i)%nat -> nth_error ex_series j = Some e' ->
       nlt (time_gap e (Fin 160)) (time_gap e' (Fin 160)) = true).
Proof.
  apply (X1_scan_finds_nearest 160 ex_series).
  - discriminate.
  - intros e He. simpl in He.
    repeat (destruct He as [<-|He]; [eexists; reflexivity|]). destruct He.
Defined.

(** X2 -- [findClosestExcitation] answers with a sample only when that
    sample is less than 100 fs from the query and no sample is nearer, and
    it answers null exactly when no sample is less than 100 fs away. *)
Theorem X2_findClosestExcitation_gate (t : Q) (data : list Exc.t) :
  (forall e, In e data -> is_fin (Exc.time_fs e)) ->
  (forall e, findClosestExcitation (Some data) (Fin t) = Some e ->
     In e data /\
     nlt (time_gap e (Fin t)) (Fin 100) = true /\
     forall e', In e' data ->
       nle (time_gap e (Fin t)) (time_gap e' (Fin t)) = true) /\
  (findClosestExcitation (Some data) (Fin t) = None <->
   forall e', In e' data -> nlt (time_gap e' (Fin t)) (Fin 100) = false).
Proof.
  intro Hfin. unfold findClosestExcitation.
  destruct (closest_scan_nearest t data Hfin)
    as [[-> ->] | (i & e & Hi & -> & Hmin & _)]; cbn [fst snd].
  - cbn [nlt]. split; [discriminate|]. split; [intros _ e' []|reflexivity].
  - assert (Hin : In e data) by (eapply nth_error_In; eauto).
    destruct (nlt (time_gap e (Fin t)) (Fin 100)) eqn:Hg.
    + split.
      * intros e0 E. injection E as <-. auto.
      * split; [discriminate|]. intro H. rewrite (H e Hin) in Hg. discriminate.
    + split; [discriminate|]. split; [|reflexivity].
      intros _ e' He'.
      destruct (time_gap_finite e t (Hfin e Hin)) as [g Eg].
      destruct (time_gap_finite e' t (Hfin e' He')) as [g' Eg'].
      specialize (Hmin e' He'). rewrite Eg, Eg' in *.
      apply nlt_false_Fin in Hg. apply nle_Fin in Hmin. apply nlt_false_Fin.
      lra.
Qed.

Lemma X2_findClosestExcitation_gate_witness :
  findClosestExcitation (Some ex_series) (Fin 520) = None <->
  forall e', In e' ex_series -> nlt (time_gap e' (Fin 520)) (Fin 100) = false.
Proof.
  refine (proj2 (X2_findClosestExcitation_gate 520 ex_series _)).
  intros e He. simpl in He.
  repeat (destruct He as [<-|He]; [eexists; reflexivity|]). destruct He.
Defined.

(** ** More on the temporal aligner *)

(** X3 -- for a series with finite sample times and a finite query time,
    [findClosestExcitationData] answers null only when the series is
    empty. *)
Theorem X3_lookup_null_only_if_empty (t : Q) (data : list Exc.t) :
  (forall e, In e data -> is_fin (Exc.time_fs e)) ->
  (findClosestExcitationData (Some data) (Fin t) = None <-> data = []).
Proof.
  intro Hfin. split.
  - destruct data as [|first rest]; [reflexivity|].
    unfold findClosestExcitationData.
    destruct (nlt (Fin t) (Exc.time_fs first)); [discriminate|].
    destruct (ngt (Fin t) (Exc.time_fs (last (first :: rest) first)));
      [discriminate|].
    destruct (find_beforeIndex 0 (first :: rest) (Fin t)); [discriminate|].
    destruct (closest_scan_nearest t (first :: rest) Hfin)
      as [[E _] | (i & e & _ & -> & _)]; discriminate.
  - intros ->. reflexivity.
Qed.

Lemma X3_lookup_null_only_if_empty_witness :
  findClosestExcitationData (Some ex_series) (Fin 250) = None <->
  ex_series = [].
Proof.
  apply (X3_lookup_null_only_if_empty 250 ex_series).
  intros e He. simpl in He.
  repeat (destruct He as [<-|He]; [eexists; reflexivity|]). destruct He.
Defined.

(** X6 -- a query strictly before the first sample of an ordered series
    returns the stored first sample itself, one strictly after the last
    sample returns the stored last sample itself, and a series of a single
    sample with a finite time answers every finite query with that
    sample. *)
Theorem X6_out_of_range_clamped (first : Exc.t) (rest : list Exc.t) (t : num) :
  time_ordered (first :: rest) ->
  (nlt t (Exc.time_fs first) = true ->
   findClosestExcitationData (Some (first :: rest)) t = Some first) /\
  (nlt (Exc.time_fs (last (first :: rest) first)) t = true ->
   findClosestExcitationData (Some (first :: rest)) t
   = Some (last (first :: rest) first)) /\
  (rest = [] -> is_fin (Exc.time_fs first) -> is_fin t ->
   findClosestExcitationData (Some (first :: rest)) t = Some first).
Proof.
  intro Ho. split; [apply find_clamps_below|]. split.
  - intro Hlast. apply find_clamps_above; [|exact Hlast].
    destruct (time_ordered_last _ first 0%nat first Ho eq_refl) as [E|E].
    + rewrite <- E in Hlast. now apply nlt_not_sym.
    + apply nlt_not_sym. eapply nlt_trans; eauto.
  - intros -> [tf Etf] [q ->].
    unfold findClosestExcitationData. cbn [last].
    destruct (nlt (Fin q) (Exc.time_fs first)); [reflexivity|].
    destruct (ngt (Fin q) (Exc.time_fs first)); [reflexivity|].
    cbn [find_beforeIndex]. unfold closest_scan. cbn [fold_left].
    unfold closest_step. rewrite Etf. reflexivity.
Qed.

Lemma X6_out_of_range_clamped_witness :
  findClosestExcitationData (Some ex_series) (Fin (- 20))
  = Some (sample 0 (1 # 10) (4 # 10)) /\
  findClosestExcitationData (Some ex_series) (Fin 450)
  = Some (sample 400 (5 # 100) (5 # 10)).
Proof.
  destruct (X6_out_of_range_clamped (sample 0 (1 # 10) (4 # 10))
              (tl ex_series) (Fin (- 20))) as (H1 & _).
  { repeat constructor. }
  destruct (X6_out_of_range_clamped (sample 0 (1 # 10) (4 # 10))
              (tl ex_series) (Fin 450)) as (_ & H2 & _).
  { repeat constructor. }
  split; [apply H1; reflexivity | apply H2; reflexivity].
Defined.

(** ** The energy axis *)



(** X8 -- asked for a single step, [generateEnergyRange] divides by zero
    and returns one NaN, whatever the finite bounds; asked for no step it
    returns the empty list. *)
Theorem X8_energy_range_degenerate (min max : Q) :
  generateEnergyRange (Fin min) (Fin max) 1 = [NaN] /\
  generateEnergyRange (Fin min) (Fin max) 0 = [].
Proof.
  split; [|reflexivity].
  unfold generateEnergyRange. cbn [seq map].
  change (ndiv (nsub (Fin max) (Fin min)) (nsub (num_of_nat 1) (Fin 1)))
    with (inf_of (Qsign (max + - min)) true).
  destruct (Qsign (max + - min)); reflexivity.
Qed.

(** ** Bounds on the spectrum *)

Lemma gaussian_bounds (exp_Q : Q -> Q) (o en E : Q) :
  (forall x, 0 <= exp_Q x) -> (forall x, x <= 0 -> exp_Q x <= 1) ->
  0 <= transition_term exp_Q o en E /\
  transition_term exp_Q o en E <= positive_part o.
Proof.
  intros Hpos Hle. unfold transition_term, positive_part, gaussian.
  destruct (Qlt_bool 0 o) eqn:Ho; [|split; apply Qle_refl].
  apply Qlt_bool_iff in Ho.
  set (arg := - ((E - en) * (E - en)) / (2 * (15 # 100) * (15 # 100))).
  assert (Harg : arg <= 0).
  { unfold arg. apply Qle_shift_div_r; [reflexivity|].
    pose proof (Qsquare_nonneg (E - en)). lra. }
  pose proof (Hpos arg) as H0. pose proof (Hle arg Harg) as H1.
  split.
  - apply Qmult_le_0_compat; lra.
  - setoid_replace o with (o * 1) at 2 by ring.
    apply Qmult_le_l; assumption.
Qed.

(** X9 -- if the exponential is never negative and is at most 1 on
    non-positive arguments, every synthesised intensity lies between 0 and
    the sum of the positive oscillator strengths of the sample. *)
Theorem X9_spectrum_bounds (exp_Q : Q -> Q) (energyRange : list num)
  (excitation : Exc.t) (o1 e1 o2 e2 : Q) :
  (forall x, 0 <= exp_Q x) -> (forall x, x <= 0 -> exp_Q x <= 1) ->
  Exc.s1_oscillator excitation = VNum (Fin o1) ->
  Exc.s1_energy excitation = Fin e1 ->
  Exc.s2_oscillator excitation = VNum (Fin o2) ->
  Exc.s2_energy excitation = Fin e2 ->
  forall i E, nth_error energyRange i = Some (Fin E) ->
    exists v,
      nth_error (generateSpectrum exp_Q energyRange excitation) i
      = Some (Fin v) /\
      0 <= v /\ v <= positive_part o1 + positive_part o2.
Proof.
  intros Hpos Hle O1 E1 O2 E2 i E Hi.
  unfold generateSpectrum. rewrite nth_error_map, Hi. cbn [option_map].
  destruct (intensity_at_finite exp_Q excitation o1 e1 o2 e2 E O1 E1 O2 E2)
    as (v & -> & Hv & _).
  exists v. split; [reflexivity|].
  destruct (gaussian_bounds exp_Q o1 e1 E Hpos Hle) as [A1 B1].
  destruct (gaussian_bounds exp_Q o2 e2 E Hpos Hle) as [A2 B2].
  rewrite Hv. split; lra.
Qed.

Lemma X9_spectrum_bounds_witness :
  exists v,
    nth_error (generateSpectrum (fun _ => 1) [Fin 3; Fin 4]
                 (sample 0 (1 # 10) (4 # 10))) 1
    = Some (Fin v) /\
    0 <= v /\ v <= positive_part (1 # 10) + positive_part (4 # 10).
Proof.
  apply (X9_spectrum_bounds (fun _ => 1) [Fin 3; Fin 4]
           (sample 0 (1 # 10) (4 # 10)) (1 # 10) (35 # 10) (4 # 10) (42 # 10)
           (fun _ => ltac:(discriminate)) (fun _ _ => ltac:(discriminate))
           eq_refl eq_refl eq_refl eq_refl 1%nat 4 eq_refl).
Defined.

(** ** The statistics of a bin *)

Lemma binData_In_index (corr : list Corr.t) (bins : list Bin.t) (b : Bin.t) :
  binData corr = Some bins -> In b bins ->
  exists i, bin_of_index corr i = Some b.
Proof.
  unfold binData.
  destruct (loop_indices (numBins corr)) as [indices|]; [|discriminate].
  cbn [option_map]. intro H. injection H as <-.
  rewrite fold_push_opt. cbn [app]. rewrite in_flat_map.
  intros (i & _ & Hb). exists i.
  destruct (bin_of_index corr i) as [b'|]; [|destruct Hb].
  destruct Hb as [->|[]]. reflexivity.
Qed.

Lemma filter_split_length {A} (p : A -> bool) (l : list A) :
  (length (filter p l) + length (filter (fun d => negb (p d)) l)
   = length l)%nat.
Proof.
  induction l as [|a l IH]; simpl; [reflexivity|].
  destruct (p a); simpl; lia.
Qed.

Lemma percentage_finite (c n : nat) :
  (0 < n)%nat ->
  nmul (ndiv (num_of_nat c) (num_of_nat n)) (Fin 100)
  = Fin (inject_Z (Z.of_nat c) / inject_Z (Z.of_nat n) * 100).
Proof.
  intro Hn. unfold num_of_nat. cbn [ndiv].
  destruct (Qeq_bool _ 0) eqn:E; [|reflexivity].
  apply Qeq_bool_iff in E. exfalso.
  assert (H : (1 <= Z.of_nat n)%Z) by lia.
  rewrite Zle_Qle in H. change (inject_Z 1) with 1 in H. lra.
Qed.

Lemma bin_of_index_counts (corr : list Corr.t) (i : nat) (b : Bin.t) :
  bin_of_index corr i = Some b ->
  (0 < Bin.totalCount b)%nat /\
  Bin.totalCount b = length (Bin.allFrames b) /\
  Bin.s1DominantCount b = length (s1_members b) /\
  Bin.s2DominantCount b = (Bin.totalCount b - Bin.s1DominantCount b)%nat /\
  Bin.s1Percentage b
  = nmul (ndiv (num_of_nat (Bin.s1DominantCount b))
               (num_of_nat (Bin.totalCount b))) (Fin 100) /\
  Bin.s2Percentage b
  = nmul (ndiv (num_of_nat (Bin.s2DominantCount b))
               (num_of_nat (Bin.totalCount b))) (Fin 100).
Proof.
  unfold bin_of_index.
  destruct (0 <? length (pointsInBin corr i))%nat eqn:Hlen; [|discriminate].
  intro H. injection H as <-. unfold s1_members. cbn.
  apply Nat.ltb_lt in Hlen. repeat split; auto.
Qed.

(** X10 -- in every recorded bin the two dominance counts are the numbers
    of its S1-dominant and S2-dominant members and add up to its total,
    which is the number of its members and is not 0; each percentage is
    its count divided by the total, times 100, a finite number from 0 to
    100. *)
Theorem X10_bin_counts (corr : list Corr.t) (bins : list Bin.t) (b : Bin.t) :
  binData corr = Some bins -> In b bins ->
  Bin.totalCount b = length (Bin.allFrames b) /\
  Bin.s1DominantCount b = length (s1_members b) /\
  Bin.s2DominantCount b = length (s2_members b) /\
  (Bin.s1DominantCount b + Bin.s2DominantCount b = Bin.totalCount b)%nat /\
  (0 < Bin.totalCount b)%nat /\
  exists p1 p2,
    Bin.s1Percentage b = Fin p1 /\ Bin.s2Percentage b = Fin p2 /\
    p1 == inject_Z (Z.of_nat (Bin.s1DominantCount b))
          / inject_Z (Z.of_nat (Bin.totalCount b)) * 100 /\
    p2 == inject_Z (Z.of_nat (Bin.s2DominantCount b))
          / inject_Z (Z.of_nat (Bin.totalCount b)) * 100 /\
    0 <= p1 /\ p1 <= 100 /\ 0 <= p2 /\ p2 <= 100.
Proof.
  intros Hbins Hb.
  destruct (binData_In_index corr bins b Hbins Hb) as [i Hi].
  destruct (bin_of_index_counts corr i b Hi)
    as (Hpos & Htot & H1 & H2 & P1 & P2).
  pose proof (filter_split_length Corr.s1_dominant (Bin.allFrames b)) as Hsplit.
  fold (s1_members b) in Hsplit. fold (s2_members b) in Hsplit.
  assert (Hs2 : Bin.s2DominantCount b = length (s2_members b)) by lia.
  split; [exact Htot|]. split; [exact H1|]. split; [exact Hs2|].
  split; [lia|]. split; [exact Hpos|].
  rewrite P1, P2, !percentage_finite by exact Hpos.
  eexists. eexists. split; [reflexivity|]. split; [reflexivity|].
  split; [reflexivity|]. split; [reflexivity|].
  set (n := Bin.totalCount b) in *.
  set (c1 := Bin.s1DominantCount b) in *.
  set (c2 := Bin.s2DominantCount b) in *.
  assert (Hn : 1 <= inject_Z (Z.of_nat n)).
  { assert (H : (1 <= Z.of_nat n)%Z) by lia. now rewrite Zle_Qle in H. }
  assert (Hc1 : 0 <= inject_Z (Z.of_nat c1)).
  { assert (H : (0 <= Z.of_nat c1)%Z) by lia. now rewrite Zle_Qle in H. }
  assert (Hc2 : 0 <= inject_Z (Z.of_nat c2)).
  { assert (H : (0 <= Z.of_nat c2)%Z) by lia. now rewrite Zle_Qle in H. }
  assert (Hsum : inject_Z (Z.of_nat c1) + inject_Z (Z.of_nat c2)
                 == inject_Z (Z.of_nat n)).
  { rewrite <- inject_Z_plus. replace (Z.of_nat c1 + Z.of_nat c2)%Z
      with (Z.of_nat n) by lia. reflexivity. }
  assert (Hq1 : 0 <= inject_Z (Z.of_nat c1) / inject_Z (Z.of_nat n) <= 1).
  { split; [apply Qle_shift_div_l | apply Qle_shift_div_r]; lra. }
  assert (Hq2 : 0 <= inject_Z (Z.of_nat c2) / inject_Z (Z.of_nat n) <= 1).
  { split; [apply Qle_shift_div_l | apply Qle_shift_div_r]; lra. }
  repeat split; lra.
Qed.

Lemma X10_bin_counts_witness :
  exists bins b,
    binData ex_corrs = Some bins /\ In b bins /\
    Bin.totalCount b = length (Bin.allFrames b) /\
    Bin.s1DominantCount b = length (s1_members b) /\
    Bin.s2DominantCount b = length (s2_members b) /\
    (Bin.s1DominantCount b + Bin.s2DominantCount b = Bin.totalCount b)%nat /\
    (0 < Bin.totalCount b)%nat /\
    exists p1 p2,
      Bin.s1Percentage b = Fin p1 /\ Bin.s2Percentage b = Fin p2 /\
      p1 == inject_Z (Z.of_nat (Bin.s1DominantCount b))
            / inject_Z (Z.of_nat (Bin.totalCount b)) * 100 /\
      p2 == inject_Z (Z.of_nat (Bin.s2DominantCount b))
            / inject_Z (Z.of_nat (Bin.totalCount b)) * 100 /\
      0 <= p1 /\ p1 <= 100 /\ 0 <= p2 /\ p2 <= 100.
Proof.
  eexists. eexists.
  split; [vm_compute; reflexivity|].
  split; [left; reflexivity|].
  refine (X10_bin_counts ex_corrs _ _ _ _);
    [vm_compute; reflexivity | left; reflexivity].
Defined.

(** ** The ranges of the bins *)

Lemma bin_of_index_range (corr : list Corr.t) (i : nat) (b : Bin.t) :
  bin_of_index corr i = Some b ->
  Bin.binStart b = binStart_of corr i /\
  Bin.binEnd b = nadd (binStart_of corr i) binSize /\
  Bin.binCenter b = nadd (binStart_of corr i) (ndiv binSize (Fin 2)) /\
  Bin.allFrames b = pointsInBin corr i /\
  pointsInBin corr i <> [].
Proof.
  unfold bin_of_index.
  destruct (0 <? length (pointsInBin corr i))%nat eqn:Hlen; [|discriminate].
  intro H. injection H as <-. cbn. repeat split.
  intro E. rewrite E in Hlen. discriminate.
Qed.

(** A bin is only recorded when the least twist angle is finite. *)
Lemma bin_minTwist_finite (corr : list Corr.t) (i : nat) (b : Bin.t) :
  bin_of_index corr i = Some b -> exists lo, minTwist corr = Fin lo.
Proof.
  intro Hb. destruct (bin_of_index_range corr i b Hb) as (_ & _ & _ & _ & Hne).
  destruct (pointsInBin corr i) as [|d pts] eqn:Hp; [congruence|].
  assert (Hd : In d (pointsInBin corr i)) by (rewrite Hp; now left).
  unfold pointsInBin, binStart_of in Hd. apply filter_In in Hd as [_ Hd].
  unfold in_bin, nge, binSize, num_of_nat in Hd.
  apply andb_true_iff in Hd as [L U].
  destruct (minTwist corr) as [lo| | |]; [now exists lo| | |];
    destruct (Corr.twist_angle d); discriminate.
Qed.

(** X11 -- every recorded bin starts a whole number of 5-degree steps above
    the least twist angle, ends 5 degrees above its start with its centre
    2.5 degrees above it, and holds only correlated frames whose twist
    angle [x] satisfies [binStart <= x < binEnd]. *)
Theorem X11_bin_ranges (corr : list Corr.t) (bins : list Bin.t) (b : Bin.t) :
  binData corr = Some bins -> In b bins ->
  exists lo i s,
    minTwist corr = Fin lo /\
    Bin.binStart b = Fin s /\
    s == lo + inject_Z (Z.of_nat i) * 5 /\
    Bin.binEnd b = Fin (s + 5) /\
    (exists c, Bin.binCenter b = Fin c /\ c == s + 5 / 2) /\
    Bin.allFrames b <> [] /\
    forall d, In d (Bin.allFrames b) ->
      In d corr /\
      exists x, Corr.twist_angle d = Fin x /\ s <= x /\ x < s + 5.
Proof.
  intros Hbins Hb.
  destruct (binData_In_index corr bins b Hbins Hb) as [i Hi].
  destruct (bin_minTwist_finite corr i b Hi) as [lo Hlo].
  destruct (bin_of_index_range corr i b Hi) as (S & E & C & A & Hne).
  exists lo, i, (lo + inject_Z (Z.of_nat i) * 5).
  unfold binStart_of, binSize, num_of_nat in S, E, C.
  rewrite Hlo in S, E, C.
  split; [exact Hlo|]. split; [exact S|]. split; [reflexivity|].
  split; [exact E|]. split; [|split].
  - eexists. split; [exact C|]. reflexivity.
  - rewrite A. exact Hne.
  - intros d Hd. rewrite A in Hd.
    apply (pointsInBin_In corr lo i d Hlo) in Hd as (Hin & x & Hx & L & U).
    split; [exact Hin|]. exists x. auto.
Qed.

Lemma X11_bin_ranges_witness :
  exists bins b,
    binData ex_corrs = Some bins /\ In b bins /\
    exists lo i s,
      minTwist ex_corrs = Fin lo /\
      Bin.binStart b = Fin s /\
      s == lo + inject_Z (Z.of_nat i) * 5 /\
      Bin.binEnd b = Fin (s + 5) /\
      (exists c, Bin.binCenter b = Fin c /\ c == s + 5 / 2) /\
      Bin.allFrames b <> [] /\
      forall d, In d (Bin.allFrames b) ->
        In d ex_corrs /\
        exists x, Corr.twist_angle d = Fin x /\ s <= x /\ x < s + 5.
Proof.
  eexists. eexists.
  split; [vm_compute; reflexivity|].
  split; [left; reflexivity|].
  refine (X11_bin_ranges ex_corrs _ _ _ _);
    [vm_compute; reflexivity | left; reflexivity].
Defined.

(** ** What the correlation keeps *)

Lemma correlate_frame_fields (exc : list Exc.t) (g : Geom.t) (d : Corr.t) :
  correlate_frame exc g = Some d ->
  exists e m,
    closest_scan (Geom.time_fs g) exc = (Some e, m) /\
    nlt m (Fin 50) = true /\
    Corr.twist_angle d = Geom.twist_angle g /\
    Corr.ring_planarity d = Geom.ring_planarity g /\
    Corr.time_ps d = Geom.time_ps g /\
    Corr.time_fs d = Geom.time_fs g /\
    Corr.frame_number d = Geom.frame_number g /\
    Corr.s1_oscillator d = Exc.s1_oscillator e /\
    Corr.s2_oscillator d = Exc.s2_oscillator e.
Proof.
  unfold correlate_frame.
  destruct (closest_scan (Geom.time_fs g) exc) as [[e|] m]; [|discriminate].
  destruct (nlt m (Fin 50)) eqn:Hm; [|discriminate].
  destruct (typeof_number (Exc.s1_oscillator e)); [|discriminate].
  destruct (typeof_number (Exc.s2_oscillator e)); [|discriminate].
  cbn. intro H. injection H as <-. exists e, m. cbn. repeat split; auto.
Qed.

(** X13 -- every entry of [correlationData] comes from one geometry frame,
    whose twist angle, planarity, times and frame number it copies, and
    from one excitation sample, whose oscillator strengths it copies; with
    finite times, that sample is less than 50 fs from the frame and no
    sample is nearer. *)
Theorem X13_correlated_entry (geo : list Geom.t) (exc : list Exc.t)
  (d : Corr.t) :
  (forall g, In g geo -> is_fin (Geom.time_fs g)) ->
  (forall e, In e exc -> is_fin (Exc.time_fs e)) ->
  In d (correlationData geo exc) ->
  exists g e,
    In g geo /\ In e exc /\
    Corr.twist_angle d = Geom.twist_angle g /\
    Corr.ring_planarity d = Geom.ring_planarity g /\
    Corr.time_ps d = Geom.time_ps g /\
    Corr.time_fs d = Geom.time_fs g /\
    Corr.frame_number d = Geom.frame_number g /\
    Corr.s1_oscillator d = Exc.s1_oscillator e /\
    Corr.s2_oscillator d = Exc.s2_oscillator e /\
    nlt (time_gap e (Geom.time_fs g)) (Fin 50) = true /\
    forall e', In e' exc ->
      nle (time_gap e (Geom.time_fs g)) (time_gap e' (Geom.time_fs g)) = true.
Proof.
  intros Hg He Hd.
  apply correlationData_In in Hd as (g & Hin & Hc).
  apply correlate_frame_fields in Hc
    as (e & m & Hs & Hm & F1 & F2 & F3 & F4 & F5 & F6 & F7).
  destruct (Hg g Hin) as [tg Etg]. rewrite Etg in *.
  destruct (closest_scan_nearest tg exc He)
    as [[_ E] | (i & e0 & Hi & E & Hmin & _)]; rewrite E in Hs.
  - discriminate.
  - injection Hs as <- <-.
    exists g, e0. rewrite Etg.
    assert (In e0 exc) by (eapply nth_error_In; eauto).
    repeat (split; [assumption|]). exact Hmin.
Qed.

Lemma X13_correlated_entry_witness :
  exists g e,
    In g ex_geometry /\ In e ex_series /\
    Corr.twist_angle ex_entry = Geom.twist_angle g /\
    Corr.ring_planarity ex_entry = Geom.ring_planarity g /\
    Corr.time_ps ex_entry = Geom.time_ps g /\
    Corr.time_fs ex_entry = Geom.time_fs g /\
    Corr.frame_number ex_entry = Geom.frame_number g /\
    Corr.s1_oscillator ex_entry = Exc.s1_oscillator e /\
    Corr.s2_oscillator ex_entry = Exc.s2_oscillator e /\
    nlt (time_gap e (Geom.time_fs g)) (Fin 50) = true /\
    forall e', In e' ex_series ->
      nle (time_gap e (Geom.time_fs g)) (time_gap e' (Geom.time_fs g)) = true.
Proof.
  apply (X13_correlated_entry ex_geometry ex_series ex_entry).
  - intros g Hg. simpl in Hg.
    repeat (destruct Hg as [<-|Hg]; [eexists; reflexivity|]). destruct Hg.
  - intros e He. simpl in He.
    repeat (destruct He as [<-|He]; [eexists; reflexivity|]). destruct He.
  - vm_compute. right. left. reflexivity.
Defined.

(** ** The frame a bar leads to *)

Lemma members_not_both_empty (b : Bin.t) :
  Bin.allFrames b <> [] -> s1_members b = [] -> s2_members b <> [].
Proof.
  intros Hne H1 H2.
  pose proof (filter_split_length Corr.s1_dominant (Bin.allFrames b)) as H.
  fold (s1_members b) in H. fold (s2_members b) in H.
  rewrite H1, H2 in H. cbn in H.
  destruct (Bin.allFrames b); [congruence | discriminate].
Qed.

(** X15 -- for every recorded bin and either of its bars, the
    [targetFrame] that [handleBarClick] computes is never null: it is the
    frame number of a member of that bin, an S1-dominant member for the S1
    bar when the bin has one, and an S2-dominant member for the S2 bar
    when the bin has one. *)
Theorem X15_bar_click_target (corr : list Corr.t) (i : nat) (bin : Bin.t)
  (datasetIndex : nat) :
  bin_of_index corr i = Some bin ->
  exists d,
    In d (Bin.allFrames bin) /\
    handleBarClick_target bin datasetIndex = Some (Corr.frame_number d) /\
    (datasetIndex = 0%nat -> s1_members bin <> [] ->
     Corr.s1_dominant d = true) /\
    (datasetIndex = 1%nat -> s2_members bin <> [] ->
     Corr.s1_dominant d = false).
Proof.
  intro Hb.
  destruct (bin_of_index_frames _ _ _ Hb)
    as (Hall & _ & Hne & E1 & E2 & _).
  rewrite <- Hall in Hne.
  assert (Hfin : forall d, In d (s1_members bin ++ s2_members bin) ->
                           is_fin (Corr.twist_angle d)).
  { intros d Hd. apply in_app_or in Hd.
    assert (Hin : In d (pointsInBin corr i)).
    { rewrite <- Hall. unfold s1_members, s2_members in Hd.
      destruct Hd as [Hd|Hd]; apply filter_In in Hd; tauto. }
    unfold pointsInBin in Hin. apply filter_In in Hin as [_ Hin].
    eapply in_bin_finite; eauto. }
  unfold handleBarClick_target. rewrite E1, E2.
  destruct (s1_members bin) as [|a1 l1] eqn:S1;
    destruct (s2_members bin) as [|a2 l2] eqn:S2.
  - exfalso. now apply (members_not_both_empty bin Hne S1).
  - rewrite findBestComparisonPair_empty by now left.
    cbn [s1Frame s2Frame hd_error option_map not_null andb].
    rewrite !andb_false_r.
    assert (Hin : In a2 (s2_members bin)) by (rewrite S2; now left).
    unfold s2_members in Hin. apply filter_In in Hin as [Hin Hdom].
    apply negb_true_iff in Hdom.
    exists a2. split; [exact Hin|].
    split; [now destruct (datasetIndex =? 1)%nat|].
    split; [congruence | auto].
  - rewrite findBestComparisonPair_empty by now right.
    cbn [s1Frame s2Frame hd_error option_map not_null andb].
    rewrite !andb_false_r.
    assert (Hin : In a1 (s1_members bin)) by (rewrite S1; now left).
    unfold s1_members in Hin. apply filter_In in Hin as [Hin Hdom].
    exists a1. split; [exact Hin|].
    split; [now destruct (datasetIndex =? 0)%nat|].
    split; [auto | congruence].
  - destruct (findBestComparisonPair_minimal (a1 :: l1) (a2 :: l2))
      as (a & b & Ha & Hb' & -> & _); try discriminate.
    { exact Hfin. }
    cbn [s1Frame s2Frame option_map not_null].
    rewrite <- S1 in Ha. rewrite <- S2 in Hb'.
    unfold s1_members in Ha. apply filter_In in Ha as [Ha Hda].
    unfold s2_members in Hb'. apply filter_In in Hb' as [Hb' Hdb].
    apply negb_true_iff in Hdb.
    rewrite !andb_true_r.
    destruct (datasetIndex =? 0)%nat eqn:K0.
    + exists a. apply Nat.eqb_eq in K0.
      split; [exact Ha|]. split; [reflexivity|].
      split; [auto | intros K1; lia].
    + destruct (datasetIndex =? 1)%nat eqn:K1.
      * exists b. apply Nat.eqb_neq in K0.
        split; [exact Hb'|]. split; [reflexivity|].
        split; [intros K; lia | auto].
      * exists a. apply Nat.eqb_neq in K0. apply Nat.eqb_neq in K1.
        split; [exact Ha|]. split; [reflexivity|].
        split; intros K; lia.
Qed.

Lemma X15_bar_click_target_witness :
  exists bin d,
    bin_of_index ex_corrs 0 = Some bin /\
    In d (Bin.allFrames bin) /\
    handleBarClick_target bin 1 = Some (Corr.frame_number d) /\
    (1%nat = 0%nat -> s1_members bin <> [] -> Corr.s1_dominant d = true) /\
    (1%nat = 1%nat -> s2_members bin <> [] -> Corr.s1_dominant d = false).
Proof.
  eexists.
  assert (H : bin_of_index ex_corrs 0 = Some _) by (vm_compute; reflexivity).
  destruct (X15_bar_click_target ex_corrs 0 _ 1 H) as (d & Hd).
  exists d. split; [exact H | exact Hd].
Defined.

(** ** The order of the bonds *)

Lemma sorted_snoc {A} (R : A -> A -> Prop) (l : list A) (x : A) :
  StronglySorted R l -> Forall (fun y => R y x) l ->
  StronglySorted R (l ++ [x]).
Proof.
  intros Hs Hall. induction Hs as [|a l Hs IH Ha]; cbn [app].
  - constructor; constructor.
  - inversion Hall; subst. constructor; [now apply IH|].
    apply Forall_app. split; [exact Ha | now constructor].
Qed.

Lemma sorted_NoDup {A} (R : A -> A -> Prop) (l : list A) :
  (forall x, ~ R x x) -> StronglySorted R l -> NoDup l.
Proof.
  intros Hirr Hs. induction Hs as [|a l Hs IH Ha]; constructor; [|exact IH].
  intro Hin. rewrite Forall_forall in Ha. exact (Hirr a (Ha a Hin)).
Qed.

Section BondOrder.

Variable sqrt_Q : Q -> Q.

Lemma inner_loop_sorted (atoms : list string) (i : nat) (ci : vec3)
  (tl : list vec3) (k : nat) (acc : list BondMesh) :
  StronglySorted lex_lt (map atomIndices acc) ->
  (forall p, In p (map atomIndices acc) -> lex_lt p (i, k)) ->
  StronglySorted lex_lt
    (map atomIndices
       (fold_left (bond_step sqrt_Q atoms i ci) (indexed_from k tl) acc)) /\
  (forall p,
     In p (map atomIndices
             (fold_left (bond_step sqrt_Q atoms i ci) (indexed_from k tl) acc)) ->
     (fst p <= i)%nat).
Proof.
  revert k acc. induction tl as [|c tl IH]; intros k acc Hs Hlt.
  - cbn [indexed_from fold_left]. split; [exact Hs|].
    intros p Hp. destruct (Hlt p Hp) as [H|[H _]]; cbn in H; lia.
  - cbn [indexed_from fold_left]. apply IH.
    + unfold bond_step.
      destruct (nlt (calculateDistance sqrt_Q ci c) (maxDistance atoms i k));
        [|exact Hs].
      rewrite map_app. cbn [map atomIndices].
      apply sorted_snoc; [exact Hs|]. apply Forall_forall. exact Hlt.
    + intros p Hp. unfold bond_step in Hp.
      assert (Hweak : forall q, lex_lt q (i, k) -> lex_lt q (i, S k)).
      { intros q [H|[H1 H2]]; [left; exact H|right]. cbn in *. lia. }
      destruct (nlt (calculateDistance sqrt_Q ci c) (maxDistance atoms i k)).
      * rewrite map_app in Hp. apply in_app_or in Hp as [Hp|[<-|[]]].
        -- apply Hweak, Hlt, Hp.
        -- right. cbn. lia.
      * apply Hweak, Hlt, Hp.
Qed.

Lemma bond_loop_sorted (atoms : list string) (rest : list vec3) (i : nat)
  (acc : list BondMesh) :
  StronglySorted lex_lt (map atomIndices acc) ->
  (forall p, In p (map atomIndices acc) -> (fst p < i)%nat) ->
  StronglySorted lex_lt (map atomIndices (bond_loop sqrt_Q atoms i rest acc)).
Proof.
  revert i acc. induction rest as [|ci tl IH]; intros i acc Hs Hlt.
  - exact Hs.
  - cbn [bond_loop].
    destruct (inner_loop_sorted atoms i ci tl (S i) acc Hs) as [Hs' Hle].
    { intros p Hp. left. cbn. now apply Hlt. }
    apply IH; [exact Hs'|].
    intros p Hp. specialize (Hle p Hp). lia.
Qed.

(** X16 -- [createBonds] records the bonds in the order of their index
    pairs, first by the lower atom and then by the higher one, so no pair of
    atoms is recorded twice. *)
Theorem X16_bonds_ordered_once (atoms : list string) (coords : list vec3) :
  StronglySorted lex_lt (map atomIndices (createBonds sqrt_Q atoms coords)) /\
  NoDup (map atomIndices (createBonds sqrt_Q atoms coords)).
Proof.
  assert (Hs : StronglySorted lex_lt
                 (map atomIndices (createBonds sqrt_Q atoms coords))).
  { unfold createBonds. apply bond_loop_sorted; [constructor|].
    intros p []. }
  split; [exact Hs|].
  apply (sorted_NoDup lex_lt); [|exact Hs].
  intros x [H|[_ H]]; lia.
Qed.

End BondOrder.

(** ** Speed and scale *)

Lemma clamp_fin (lo hi q : Q) :
  lo <= hi ->
  exists r, clamp (Fin lo) (Fin hi) (Fin q) = Fin r /\
            lo <= r /\ r <= hi /\ (lo <= q -> q <= hi -> r == q).
Proof.
  intro Hlh. unfold clamp, Math_max, Math_min. cbn [fold_left].
  change (nmin2 PInf (Fin hi)) with (Fin hi).
  change (nmax2 NInf (Fin lo)) with (Fin lo).
  rewrite nmin2_Fin, nmax2_Fin.
  destruct (Qlt_bool q hi) eqn:H1.
  - apply Qlt_bool_iff in H1.
    destruct (Qlt_bool lo q) eqn:H2.
    + apply Qlt_bool_iff in H2. exists q. repeat split; lra.
    + assert (q <= lo)
        by (apply Qnot_lt_le; intro H; apply Qlt_bool_iff in H; congruence).
      exists lo. repeat split; lra.
  - assert (hi <= q)
      by (apply Qnot_lt_le; intro H; apply Qlt_bool_iff in H; congruence).
    destruct (Qlt_bool lo hi) eqn:H2.
    + exists hi. repeat split; lra.
    + exists lo. repeat split; try lra.
      assert (hi <= lo)
        by (apply Qnot_lt_le; intro H'; apply Qlt_bool_iff in H'; congruence).
      lra.
Qed.

Lemma clamp_spec (lo hi : Q) (x : num) :
  lo <= hi -> x <> NaN ->
  exists r, clamp (Fin lo) (Fin hi) x = Fin r /\
            lo <= r /\ r <= hi /\
            (forall q, x = Fin q -> lo <= q -> q <= hi -> r == q).
Proof.
  intros Hlh Hx. destruct x as [q| | |]; [| | |congruence].
  - destruct (clamp_fin lo hi q Hlh) as (r & Hr & A & B & C).
    exists r. repeat split; auto. intros q' E. injection E as <-. exact C.
  - unfold clamp, Math_max, Math_min. cbn [fold_left].
    change (nmin2 (nmin2 PInf (Fin hi)) PInf) with (Fin hi).
    change (nmax2 NInf (Fin lo)) with (Fin lo). rewrite nmax2_Fin.
    eexists. split; [reflexivity|].
    destruct (Qlt_bool lo hi) eqn:H.
    + apply Qlt_bool_iff in H. repeat split; try lra. discriminate.
    + assert (hi <= lo)
        by (apply Qnot_lt_le; intro H'; apply Qlt_bool_iff in H'; congruence).
      repeat split; try lra. discriminate.
  - exists lo. unfold clamp, Math_max, Math_min. cbn [fold_left].
    change (nmin2 (nmin2 PInf (Fin hi)) NInf) with NInf.
    change (nmax2 (nmax2 NInf (Fin lo)) NInf) with (Fin lo).
    repeat split; try lra. discriminate.
Qed.

(** X17 -- whatever number other than NaN is passed, [setPlaybackSpeed]
    stores a speed between 0.1 and 5 and [setDipoleScale] a scale between
    0.1 and 10; a value already within the bounds is stored as it is. *)
Theorem X17_speed_and_scale_clamped (x : num) :
  x <> NaN ->
  (exists r, setPlaybackSpeed x = Fin r /\ 1 # 10 <= r /\ r <= 5 /\
     (forall q, x = Fin q -> 1 # 10 <= q -> q <= 5 -> r == q)) /\
  (exists r, setDipoleScale x = Fin r /\ 1 # 10 <= r /\ r <= 10 /\
     (forall q, x = Fin q -> 1 # 10 <= q -> q <= 10 -> r == q)).
Proof.
  intro Hx. split.
  - apply clamp_spec; [discriminate | exact Hx].
  - apply clamp_spec; [discriminate | exact Hx].
Qed.

Lemma X17_speed_and_scale_clamped_witness :
  (exists r, setPlaybackSpeed (Fin 20) = Fin r /\ 1 # 10 <= r /\ r <= 5 /\
     (forall q, Fin 20 = Fin q -> 1 # 10 <= q -> q <= 5 -> r == q)) /\
  (exists r, setDipoleScale (Fin 20) = Fin r /\ 1 # 10 <= r /\ r <= 10 /\
     (forall q, Fin 20 = Fin q -> 1 # 10 <= q -> q <= 10 -> r == q)).
Proof.
  apply (X17_speed_and_scale_clamped (Fin 20)). discriminate.
Defined.

(** A NaN speed or scale is not clamped: it is stored as NaN. *)
Lemma clamp_keeps_NaN :
  setPlaybackSpeed NaN = NaN /\ setDipoleScale NaN = NaN.
Proof. split; reflexivity. Qed.

(** ** The bounding sphere *)

Section SphereProps.

Variable sqrt_Q : Q -> Q.

Lemma center_distance_finite (c q : Q * Q * Q) :
  exists d, center_distance sqrt_Q (fin3 c) (fin3 q) = Fin d.
Proof.
  destruct c as [[cx cy] cz], q as [[x y] z].
  unfold center_distance, fin3, pow2. cbn [nsub nneg nadd nmul Math_sqrt].
  set (s := (x + - cx) * (x + - cx) + (y + - cy) * (y + - cy)
            + (z + - cz) * (z + - cz)).
  assert (Hs : 0 <= s).
  { unfold s. pose proof (Qsquare_nonneg (x + - cx)).
    pose proof (Qsquare_nonneg (y + - cy)).
    pose proof (Qsquare_nonneg (z + - cz)). lra. }
  destruct (Qlt_bool s 0) eqn:E.
  - apply Qlt_bool_iff in E. exfalso. lra.
  - eexists. reflexivity.
Qed.

Lemma max_distance_fold (c : Q * Q * Q) (qs : list (Q * Q * Q)) (a : Q) :
  exists m,
    fold_left
      (fun maxDistance coord =>
         Math_max [maxDistance; center_distance sqrt_Q (fin3 c) coord])
      (map fin3 qs) (Fin a) = Fin m /\
    a <= m /\
    forall q d, In q qs -> center_distance sqrt_Q (fin3 c) (fin3 q) = Fin d ->
                d <= m.
Proof.
  revert a. induction qs as [|q qs IH]; intro a.
  - exists a. split; [reflexivity|]. split; [apply Qle_refl|]. intros q d [].
  - cbn [map fold_left].
    destruct (center_distance_finite c q) as [dq Hdq]. rewrite Hdq.
    unfold Math_max at 2. cbn [fold_left].
    change (nmax2 NInf (Fin a)) with (Fin a). rewrite nmax2_Fin.
    destruct (IH (if Qlt_bool a dq then dq else a)) as (m & Hm & Hle & Hall).
    exists m. split; [exact Hm|].
    assert (Hboth : a <= m /\ dq <= m).
    { destruct (Qlt_bool a dq) eqn:H.
      - apply Qlt_bool_iff in H. split; lra.
      - assert (dq <= a)
          by (apply Qnot_lt_le; intro H'; apply Qlt_bool_iff in H'; congruence).
        split; lra. }
    split; [tauto|].
    intros q' d [<-|Hin] Hd.
    + rewrite Hdq in Hd. injection Hd as <-. tauto.
    + eapply Hall; eauto.
Qed.

(** X19 -- for finite coordinates and a finite centre, the radius returned
    by [calculateBoundingSphere] is at least 2 and exceeds by at least 2
    the distance computed for every atom, and the camera is placed at a
    distance of at least 10 and at least three radii; without a first frame
    the radius is 5. *)
Theorem X19_bounding_sphere (c : Q * Q * Q) (qs : list (Q * Q * Q)) :
  boundingRadius sqrt_Q None (fin3 c) = Fin 5 /\
  exists r k,
    boundingRadius sqrt_Q (Some (map fin3 qs)) (fin3 c) = Fin r /\
    2 <= r /\
    (forall q d, In q qs ->
       center_distance sqrt_Q (fin3 c) (fin3 q) = Fin d -> d + 2 <= r) /\
    cameraDistance sqrt_Q (Some (map fin3 qs)) (fin3 c) = Fin k /\
    10 <= k /\ r * 3 <= k.
Proof.
  split; [reflexivity|].
  unfold cameraDistance, boundingRadius.
  destruct (max_distance_fold c qs 0) as (m & -> & Hm & Hall).
  cbn [nadd nmul]. unfold Math_max. cbn [fold_left].
  change (nmax2 NInf (Fin ((m + 2) * 3))) with (Fin ((m + 2) * 3)).
  rewrite nmax2_Fin.
  eexists. eexists. split; [reflexivity|]. split; [lra|]. split.
  - intros q d Hq Hd. specialize (Hall q d Hq Hd). lra.
  - split; [reflexivity|].
    destruct (Qlt_bool ((m + 2) * 3) 10) eqn:H.
    + apply Qlt_bool_iff in H. split; lra.
    + assert (10 <= (m + 2) * 3)
        by (apply Qnot_lt_le; intro H'; apply Qlt_bool_iff in H'; congruence).
      split; lra.
Qed.

End SphereProps.

(** ** Stepping through the frames *)

Lemma updateFrame_in_range (n : nat) (c idx : Z) :
  (0 <= idx < Z.of_nat n)%Z ->
  updateFrame (mkPlayback (Some n) c) idx = Done (mkPlayback (Some n) idx).
Proof.
  intro H. unfold updateFrame. cbn [frameCount].
  destruct (Z.leb_spec (Z.of_nat n) idx); [lia|].
  destruct (Z.ltb_spec idx 0); [lia|]. reflexivity.
Qed.

Lemma nextFrame_in_range (n : nat) (c : Z) :
  (0 <= c < Z.of_nat n)%Z ->
  nextFrame (mkPlayback (Some n) c)
  = Done (mkPlayback (Some n) ((c + 1) mod Z.of_nat n)).
Proof.
  intro H. unfold nextFrame. cbn [frameCount currentFrame].
  destruct n as [|n']; [lia|].
  rewrite Z.rem_mod_nonneg by lia.
  apply updateFrame_in_range. apply Z.mod_pos_bound. lia.
Qed.

Lemma previousFrame_in_range (n : nat) (c : Z) :
  (0 <= c < Z.of_nat n)%Z ->
  previousFrame (mkPlayback (Some n) c)
  = Done (mkPlayback (Some n) ((c - 1) mod Z.of_nat n)).
Proof.
  intro H. unfold previousFrame. cbn [frameCount currentFrame].
  destruct (Z.ltb_spec 0 c).
  - rewrite updateFrame_in_range by lia.
    rewrite Z.mod_small by lia. reflexivity.
  - assert (c = 0%Z) by lia. subst c.
    rewrite updateFrame_in_range by lia.
    do 2 f_equal. symmetry.
    replace (0 - 1)%Z with (Z.of_nat n - 1 + (-1) * Z.of_nat n)%Z by lia.
    rewrite Z.mod_add by lia. apply Z.mod_small. lia.
Qed.

(** X20 -- with a loaded trajectory and a frame counter within it,
    [nextFrame] and [previousFrame] keep the counter within the trajectory,
    wrap around at its two ends, and undo each other. *)
Theorem X20_next_previous (n : nat) (c : Z) :
  (0 <= c < Z.of_nat n)%Z ->
  exists nx pv,
    nextFrame (mkPlayback (Some n) c) = Done (mkPlayback (Some n) nx) /\
    previousFrame (mkPlayback (Some n) c) = Done (mkPlayback (Some n) pv) /\
    (0 <= nx < Z.of_nat n)%Z /\ (0 <= pv < Z.of_nat n)%Z /\
    (nx = if (c + 1 =? Z.of_nat n)%Z then 0 else c + 1)%Z /\
    (pv = if (c =? 0)%Z then Z.of_nat n - 1 else c - 1)%Z /\
    previousFrame (mkPlayback (Some n) nx) = Done (mkPlayback (Some n) c) /\
    nextFrame (mkPlayback (Some n) pv) = Done (mkPlayback (Some n) c).
Proof.
  intro H.
  exists ((c + 1) mod Z.of_nat n)%Z, ((c - 1) mod Z.of_nat n)%Z.
  assert (Hnx : (0 <= (c + 1) mod Z.of_nat n < Z.of_nat n)%Z)
    by (apply Z.mod_pos_bound; lia).
  assert (Hpv : (0 <= (c - 1) mod Z.of_nat n < Z.of_nat n)%Z)
    by (apply Z.mod_pos_bound; lia).
  split; [now apply nextFrame_in_range|].
  split; [now apply previousFrame_in_range|].
  split; [exact Hnx|]. split; [exact Hpv|].
  assert (Enx : ((c + 1) mod Z.of_nat n
                 = if (c + 1 =? Z.of_nat n) then 0 else c + 1)%Z).
  { destruct (Z.eqb_spec (c + 1) (Z.of_nat n)) as [E|E].
    - rewrite E. apply Z.mod_same. lia.
    - apply Z.mod_small. lia. }
  assert (Epv : ((c - 1) mod Z.of_nat n
                 = if (c =? 0) then Z.of_nat n - 1 else c - 1)%Z).
  { destruct (Z.eqb_spec c 0) as [E|E].
    - subst c.
      replace (0 - 1)%Z with (Z.of_nat n - 1 + (-1) * Z.of_nat n)%Z by lia.
      rewrite Z.mod_add by lia. apply Z.mod_small. lia.
    - apply Z.mod_small. lia. }
  split; [exact Enx|]. split; [exact Epv|]. split.
  - rewrite previousFrame_in_range by exact Hnx. do 2 f_equal.
    rewrite Zminus_mod_idemp_l.
    replace (c + 1 - 1)%Z with c by lia. apply Z.mod_small. lia.
  - rewrite nextFrame_in_range by exact Hpv. do 2 f_equal.
    rewrite Zplus_mod_idemp_l.
    replace (c - 1 + 1)%Z with c by lia. apply Z.mod_small. lia.
Qed.

Lemma X20_next_previous_witness :
  exists nx pv,
    nextFrame (mkPlayback (Some 4%nat) 3) = Done (mkPlayback (Some 4%nat) nx) /\
    previousFrame (mkPlayback (Some 4%nat) 3)
    = Done (mkPlayback (Some 4%nat) pv) /\
    (0 <= nx < Z.of_nat 4)%Z /\ (0 <= pv < Z.of_nat 4)%Z /\
    (nx = if (3 + 1 =? Z.of_nat 4)%Z then 0 else 3 + 1)%Z /\
    (pv = if (3 =? 0)%Z then Z.of_nat 4 - 1 else 3 - 1)%Z /\
    previousFrame (mkPlayback (Some 4%nat) nx)
    = Done (mkPlayback (Some 4%nat) 3) /\
    nextFrame (mkPlayback (Some 4%nat) pv) = Done (mkPlayback (Some 4%nat) 3).
Proof.
  apply (X20_next_previous 4 3). simpl. lia.
Defined.





(** ** The names of the dipole fields *)

Lemma includes_In (fields : list string) (k : string) :
  includes fields k = true <-> In k fields.
Proof.
  unfold includes. rewrite existsb_exists. split.
  - intros (x & Hx & E). apply String.eqb_eq in E. now subst.
  - intro H. exists k. split; [exact H | apply String.eqb_refl].
Qed.

Lemma first_pattern_spec (fields : list string)
  (patterns : list (string * string * string)) :
  (first_pattern fields patterns = mkFields None None None /\
   forall x y z, In (x, y, z) patterns ->
     ~ (In x fields /\ In y fields /\ In z fields)) \/
  (exists before x y z after,
     patterns = before ++ (x, y, z) :: after /\
     first_pattern fields patterns = mkFields (Some x) (Some y) (Some z) /\
     In x fields /\ In y fields /\ In z fields /\
     forall x' y' z', In (x', y', z') before ->
       ~ (In x' fields /\ In y' fields /\ In z' fields)).
Proof.
  induction patterns as [|[[x y] z] rest IH]; cbn [first_pattern].
  - left. split; [reflexivity|]. intros x y z [].
  - destruct (includes fields x && includes fields y && includes fields z)
      eqn:E.
    + right. apply andb_true_iff in E as [E Ez].
      apply andb_true_iff in E as [Ex Ey].
      apply includes_In in Ex, Ey, Ez.
      exists [], x, y, z, rest. cbn [app]. repeat split; auto.
    + assert (Hno : ~ (In x fields /\ In y fields /\ In z fields)).
      { intros (Hx & Hy & Hz). apply includes_In in Hx, Hy, Hz.
        rewrite Hx, Hy, Hz in E. discriminate. }
      destruct IH as [[Hr Hnone]|(before & x' & y' & z' & after & -> & Hr & Hin)].
      * left. split; [exact Hr|].
        intros a b c [Hp|Hp]; [injection Hp as <- <- <-; exact Hno|].
        now apply Hnone.
      * right. exists ((x, y, z) :: before), x', y', z', after.
        split; [reflexivity|]. split; [exact Hr|].
        destruct Hin as (A & B & C & D). repeat split; auto.
        intros a b c [Hp|Hp]; [injection Hp as <- <- <-; exact Hno|].
        now apply D.
Qed.

(** X23 -- [findDipoleFields] returns either three nulls, when none of the
    four naming patterns of the state has all its three names among the
    keys of the sample, or the three names of the first pattern that does:
    the names it returns are always keys of the sample, and never a mix of
    names and nulls. *)
Theorem X23_dipole_fields (fields : list string) (state : string) :
  (findDipoleFields fields state = mkFields None None None /\
   forall x y z, In (x, y, z) (dipole_patterns state) ->
     ~ (In x fields /\ In y fields /\ In z fields)) \/
  (exists before x y z after,
     dipole_patterns state = before ++ (x, y, z) :: after /\
     findDipoleFields fields state = mkFields (Some x) (Some y) (Some z) /\
     In x fields /\ In y fields /\ In z fields /\
     forall x' y' z', In (x', y', z') before ->
       ~ (In x' fields /\ In y' fields /\ In z' fields)).
Proof. apply first_pattern_spec. Qed.
